(** * serverless-dns: the upstream resolver plugin

    A shallow embedding of [src/plugins/dns-operation/dnsResolver.js]
    (class [DNSResolver]) and the properties its specification states
    about it.

    The JavaScript is asynchronous and talks to the network; the model keeps
    that visible:
    - every call that leaves the module (transport, fetch, codec, logger)
      is recorded in a trace, and a computation either returns or throws;
    - the helper modules the plugin imports ([envutil], [util], [dnsutil],
      [bufutil], the node-only modules and the platform's [URL]) are
      interfaces, so every theorem holds for any implementation of them;
    - [Promise.any] and the http2 event emitters are small state machines
      driven by the order in which the outside world settles things.

    What the platform does on its own account is kept out: a [Response]
    holds its body in memory (reading it does not fail), and
    [http2.connect] and [c.request] return without throwing.  [lazyInit]
    comes twice: as one call run alone whose imports succeed, which is
    what [RethinkModule] is stated over, and call by call in [LazyInit],
    where calls overlap and imports may fail. *)

From Stdlib.Strings Require Import Byte.
From stdpp Require Import base option list strings pretty.

Set Default Proof Using "Type".
Set Warnings "-register-all".
Local Open Scope string_scope.
Local Open Scope list_scope.

Abbreviation bytes := (list byte).

(** ** JavaScript values the plugin handles *)

(** What can stand where the code expects "a resolver url" or "the array of
    resolver urls": [null]/[undefined], a string, or an array. *)
Inductive value :=
| VNull
| VStr (s : string)
| VArr (elems : list value).

(** What can be thrown, or be the reason of a rejected promise. *)
Inductive exn :=
| Error (msg : string)
| TypeError (msg : string)
| Reason (msg : string)            (* a bare string: [reject(err.message)] *)
| AggregateError (errors : list exn).

(** [String(v)], as [new URL(v)] applies it. *)
Fixpoint to_string (v : value) : string :=
  match v with
  | VNull => "null"
  | VStr s => s
  | VArr elems =>
      String.concat ","
        (map (λ e, match e with VNull => "" | _ => to_string e end) elems)
  end.

(** The values a [for (const x of v)] loop visits; [None] when [v] is not
    iterable.  A string iterates over its characters (its code points; the
    strings here are ASCII). *)
Definition iterate (v : value) : option (list value) :=
  match v with
  | VNull => None
  | VStr s => Some (map (λ c, VStr (String c "")) (String.list_ascii_of_string s))
  | VArr elems => Some elems
  end.

Definition headers := list (string * string).

Record Request := {
  req_url : string;
  req_method : string;
  req_headers : headers;
  req_body : option bytes;
}.

Record Response := {
  status : N;
  statusText : string;
  res_headers : headers;
  res_body : bytes;
}.

(** [response.ok] of the Fetch standard. *)
Definition ok (r : Response) : bool :=
  bool_decide (200 ≤ status r ≤ 299)%N.

(** The second argument of [new Response(body, init)]. *)
Record ResponseInit := {
  init_status : option N;
  init_statusText : option string;
  init_headers : headers;
}.

Definition new_Response (body : bytes) (init : ResponseInit) : Response :=
  {| status := default 200%N (init_status init);
     statusText := default "" (init_statusText init);
     res_headers := init_headers init;
     res_body := body |}.

Definition no_init : ResponseInit :=
  {| init_status := None; init_statusText := None; init_headers := [] |}.

Record URL := {
  protocol : string;
  hostname : string;
  port : string;
  pathname : string;
  search : string;
}.

(** ** Traces and completions *)

Inductive emitter := Conn | Stream.

Inductive event :=
| Log (level : string) (msg : string)
| UdpQuery (q : bytes)
| TcpQuery (q : bytes)
| Fetch (req : Request)
| Doh2 (req : Request)
| BodyText
| BodyArrayBuffer
| Decode (buf : bytes).

(** How an [async] function ends: it returns, it throws (its promise is
    rejected), or it waits for ever on a promise that never settles. *)
Inductive completion (A : Type) :=
| Return (a : A)
| Throw (e : exn)
| Pending.
Arguments Return {A} a.
Arguments Throw {A} e.
Arguments Pending {A}.

Record M (A : Type) := Run { trace : list event; outcome : completion A }.
Arguments Run {A} trace outcome.
Arguments trace {A} m.
Arguments outcome {A} m.

#[global] Instance M_ret : MRet M := λ A a, Run [] (Return a).

#[global] Instance M_bind : MBind M := λ A B k m,
  match outcome m with
  | Return a => Run (trace m ++ trace (k a)) (outcome (k a))
  | Throw e => Run (trace m) (Throw e)
  | Pending => Run (trace m) Pending
  end.

Definition throw {A} (e : exn) : M A := Run [] (Throw e).
Definition emit (ev : event) : M unit := Run [ev] (Return tt).

(** [try { m } catch (e) { h e }] *)
Definition try_catch {A} (m : M A) (h : exn → M A) : M A :=
  match outcome m with
  | Throw e => Run (trace m ++ trace (h e)) (outcome (h e))
  | _ => m
  end.

(** A network call is one of these trace events. *)
Definition is_network (ev : event) : bool :=
  match ev with
  | UdpQuery _ | TcpQuery _ | Fetch _ | Doh2 _ => true
  | _ => false
  end.

Definition is_doh2 (ev : event) : bool :=
  match ev with Doh2 _ => true | _ => false end.

Definition is_decode (ev : event) : bool :=
  match ev with Decode _ => true | _ => false end.


(** ** The modules the plugin imports

    None of them is part of the plugin; each is an interface here. *)

(** [commons/envutil.js]: what the process was configured with. *)
Module envutil.
Class t := {
  isNode : bool;
  isWorkers : bool;
  dohResolver : value;
  secondaryDohResolver : value;
}.
End envutil.

(** [commons/bufutil.js]: conversions between buffers. *)
Module bufutil.
Class t := {
  bufferOf : bytes → bytes;
  arrayBufferOf : bytes → bytes;
  bytesToBase64Url : bytes → string;
  concatBuf : list bytes → bytes;
}.
End bufutil.

(** [commons/dnsutil.js]: the DNS codec and the plain resolver's address. *)
Module dnsutil.
Class t (Packet : Type) := {
  dnsIpv4 : string;
  truncated : bytes → bool;
  decode : bytes → exn + Packet;
}.
#[global] Arguments dnsIpv4 {Packet _}.
#[global] Arguments truncated {Packet _} ans.
#[global] Arguments decode {Packet _} buf.
End dnsutil.

(** Modelled from the spec: [util.respond503()] of [commons/util.js], which
    is not among the sources.  The specification calls it a generic
    "service unavailable" outcome mapped to an HTTP-like 503 status. *)
Definition respond503 : Response :=
  {| status := 503; statusText := "Service Unavailable";
     res_headers := []; res_body := [] |}.

(** [commons/util.js]: predicates on values and requests, header helpers. *)
Module util.
Class t := {
  emptyString : value → bool;
  emptyArray : value → bool;
  isGetRequest : Request → bool;
  isPostRequest : Request → bool;
  contentLengthHeader : bytes → headers;
  dnsHeaders : headers;
  concatHeaders : headers → headers → headers;
  copyHeaders : Request → headers;
}.
End util.

(** The platform's [URL] class: the constructor throws on what it cannot
    parse, and a field is assigned through its setter, which decides what
    the url becomes (the port setter, for one, drops a port that is the
    default of the scheme the url has at that moment). *)
Module url.
Class t := {
  parse : string → option URL;
  href : URL → string;
  origin : URL → string;
  set_hostname : string → URL → URL;
  set_pathname : string → URL → URL;
  set_port : string → URL → URL;
  set_protocol : string → URL → URL;
  set_search : string → URL → URL;
}.
End url.

(** What the plain transport hands back for one query: an answer, nothing
    at all ([null]), or a failure of the exchange. *)
Inductive reply :=
| Answered (ans : bytes)
| NoAnswer
| Failed (e : exn).

(** The objects the node-only modules provide. *)
Record Http2 := {
  HTTP2_HEADER_METHOD : string;
  HTTP2_HEADER_PATH : string;
}.

Record NodeUtil := {
  transformPseudoHeaders : headers → ResponseInit;
}.

Record Transport := {
  udpquery : bytes → reply;
  tcpquery : bytes → reply;
}.

(** What the dynamic [import(...)]s of [lazyInit] evaluate to. *)
Module node.
Class t := {
  import_http2 : Http2;
  import_util : NodeUtil;
  new_Transport : string → N → Transport;
}.
End node.

(** ** Promises *)

Inductive settled :=
| Fulfilled (v : Response)
| Rejected (e : exn).

(** *** [Promise.any]

    One slot of [errors] per input promise, empty until that promise's
    rejection has been seen; the promise [Promise.any] returned is settled
    at most once. *)
Module PromiseAny.

Record state := {
  errors : list (option exn);
  result : option settled;
}.

Definition init (n : nat) : state :=
  {| errors := replicate n None; result := None |}.

(** The resolving functions of a promise act on their first call only. *)
Definition settle (s : settled) (st : state) : state :=
  match result st with
  | None => {| errors := errors st; result := Some s |}
  | Some _ => st
  end.

Definition remaining (errs : list (option exn)) : nat :=
  length (filter (λ slot, slot = None) errs).

Definition on_fulfilled (v : Response) (st : state) : state :=
  settle (Fulfilled v) st.

Definition on_rejected (index : nat) (e : exn) (st : state) : state :=
  match errors st !! index with
  | Some None =>
      let errs := <[index := Some e]> (errors st) in
      let st := {| errors := errs; result := result st |} in
      if decide (remaining errs = 0)
      then settle (Rejected (AggregateError (omap id errs))) st
      else st
  | _ => st   (* called already, or no such promise *)
  end.

(** The input promise at [index] settles; [fates] says as what. *)
Definition step (fates : list (option settled)) (st : state)
    (index : nat) : state :=
  match fates !! index with
  | Some (Some (Fulfilled v)) => on_fulfilled v st
  | Some (Some (Rejected e)) => on_rejected index e st
  | _ => st
  end.

(** The input promises settle in the order [order]. *)
Definition run (fates : list (option settled)) (order : list nat) : state :=
  foldl (step fates) (init (length fates)) order.

Definition any (fates : list (option settled)) (order : list nat)
    : option settled :=
  result (run fates order).

(** What every state that [run] passes through satisfies. *)
Record invariant (fates : list (option settled)) (st : state) : Prop := {
  inv_length : length (errors st) = length fates;
  inv_errors j e :
    errors st !! j = Some (Some e) → fates !! j = Some (Some (Rejected e));
  inv_pending : result st = None → remaining (errors st) ≠ 0;
  inv_fulfilled v :
    result st = Some (Fulfilled v) → ∃ j, fates !! j = Some (Some (Fulfilled v));
  inv_rejected x :
    result st = Some (Rejected x) →
    remaining (errors st) = 0 ∧ x = AggregateError (omap id (errors st));
}.

End PromiseAny.

(** ** The http2 exchange of [doh2] *)

(** What the connection and the stream emit. *)
Inductive h2event :=
| ConnectionError (message : string)
| ResponseHeaders (hdrs : headers)
| Data (chunk : bytes)
| End_
| StreamError (message : string).

Definition emitted_on (ev : h2event) : emitter * string :=
  match ev with
  | ConnectionError _ => (Conn, "error")
  | ResponseHeaders _ => (Stream, "response")
  | Data _ => (Stream, "data")
  | End_ => (Stream, "end")
  | StreamError _ => (Stream, "error")
  end.

(** The closures [doh2] registers; [b] is the address of the array the
    closure captured, [hdrs] the response headers it captured. *)
Inductive listener :=
| conn_error
| stream_response
| stream_data (b : nat)
| stream_end (b : nat) (hdrs : headers)
| stream_error.

(** What [doh2] does to the connection [c] and the stream [req]; [Close] is
    the call of [c.close] detached from [c], the only one [doh2] makes. *)
Inductive h2action :=
| Connect (authority : string)
| On (target : emitter) (name : string)
| OpenStream (hdrs : headers)
| EndWrite (payload : bytes)
| Close.

#[global] Instance emitter_eq_dec : EqDecision emitter.
Proof. solve_decision. Defined.

Record session := {
  listeners : list (emitter * string * listener);
  arrays : list (list bytes);
  actions : list h2action;
  promise_state : option settled;
}.

Module h2.

Definition act (a : h2action) (s : session) : session :=
  {| listeners := listeners s; arrays := arrays s;
     actions := actions s ++ [a]; promise_state := promise_state s |}.

(** [target.on(name, l)] *)
Definition on (target : emitter) (name : string) (l : listener)
    (s : session) : session :=
  {| listeners := listeners s ++ [(target, name, l)];
     arrays := arrays s;
     actions := actions s ++ [On target name];
     promise_state := promise_state s |}.

(** [resolve]/[reject] of the promise: the first call wins. *)
Definition settle (x : settled) (s : session) : session :=
  match promise_state s with
  | None => {| listeners := listeners s; arrays := arrays s;
               actions := actions s; promise_state := Some x |}
  | Some _ => s
  end.

(** [const b = []] *)
Definition new_array (s : session) : nat * session :=
  (length (arrays s),
   {| listeners := listeners s; arrays := arrays s ++ [[]];
      actions := actions s; promise_state := promise_state s |}).

(** [b.push(chunk)] *)
Definition push (b : nat) (chunk : bytes) (s : session) : session :=
  {| listeners := listeners s;
     arrays := alter (λ chunks, chunks ++ [chunk]) b (arrays s);
     actions := actions s; promise_state := promise_state s |}.

(** [c.close] as [safeBox] calls it: the function taken off [c] and called
    without [c].  A method of node's http2 session called without its
    receiver throws before it reaches any session, so the call is made
    ([Close] is logged), always throws, and closes nothing; [thrown] is the
    error when the world names it. *)
Definition close (thrown : option exn) (s : session)
    : session * option exn :=
  (act Close s,
   Some (default (TypeError "Cannot read properties of undefined") thrown)).

(** Modelled from the spec: [util.safeBox(fn)] of [commons/util.js], which
    is not among the sources.  The specification has closure failures
    swallowed (best-effort cleanup): [fn] is called and what it throws is
    dropped. *)
Definition safeBox (fn : session → session * option exn)
    (s : session) : session :=
  (fn s).1.

End h2.

(** ** The resolver object *)

(** The fields the constructor sets (the logger is the trace). *)
Record DNSResolver := {
  http2 : option Http2;
  nodeUtil : option NodeUtil;
  transport : option Transport;
  preferredDohResolvers : list value;
}.

(** The fields of [param] this plugin reads. *)
Record Param := {
  rxid : string;
  request : Request;
  requestBodyBuffer : bytes;
  userDnsResolverUrl : value;
}.

(** A field holding an object or [null], read as a condition. *)
Definition truthy {A} (field : option A) : bool :=
  match field with Some _ => true | None => false end.

(** A promise pushed onto [promisedRes], by what created it. *)
Inductive promise :=
| PReject (e : exn)          (* [Promise.reject(e)] *)
| PFetch (req : Request)     (* [fetch(req)] *)
| PDoh2 (req : Request).     (* [this.doh2(rxid, req)] *)

(** What [resolveDnsUpstream] hands to its caller's [await]: a response, or
    the promise [Promise.any(promisedRes)]. *)
Inductive awaited :=
| Resolved (r : Response)
| Any (promisedRes : list promise).

Definition log_i (msg : string) : M unit := emit (Log "i" msg).
Definition log_w (msg : string) : M unit := emit (Log "w" msg).
Definition log_d (msg : string) : M unit := emit (Log "d" msg).
Definition log_e (msg : string) : M unit := emit (Log "e" msg).

(** What [decodeResponse] returns. *)
Record Answer (Packet : Type) := {
  dnsPacket : Packet;
  dnsBuffer : bytes;
}.
Arguments dnsPacket {Packet} a.
Arguments dnsBuffer {Packet} a.

(** What [RethinkModule] returns: [util.emptyResponse()] with its [data]
    set, or [util.errResponse(component, e)]. *)
Inductive envelope (Packet : Type) :=
| WithData (data : Answer Packet)
| ErrResponse (component : string) (e : exn).
Arguments WithData {Packet} data.
Arguments ErrResponse {Packet} component e.

(** What the outside world does during one resolution. *)
Record World := {
  (** how the promise of [fetch(req)], pushed at [index], settles *)
  fetch_fate : nat → Request → option settled;
  (** what the http2 connection and stream of the [doh2] attempt pushed at
      [index] emit *)
  h2_emits : nat → Request → list h2event;
  (** what [c.close] throws when called detached, when the world names the
      error *)
  close_throws : option exn;
  (** the order in which the promises given to [Promise.any] settle *)
  settle_order : list nat;
}.

Section Resolver.
Context {Packet : Type}.
Context `{!envutil.t, !bufutil.t, !dnsutil.t Packet, !util.t, !url.t, !node.t}.

Definition constructor : DNSResolver :=
  {| http2 := None;
     nodeUtil := None;
     transport := None;
     preferredDohResolvers :=
       [envutil.dohResolver; envutil.secondaryDohResolver] |}.

(** One call of [lazyInit] run from its first test to its end with no other
    call in between, each [import] succeeding.  (The source suspends at
    each [await import(...)], between a test and its assignment; calls
    that overlap are the matter of [LazyInit] below, of which this is the
    run of one call alone.) *)
Definition lazyInit (this : DNSResolver) : M DNSResolver :=
  this ←
    (if envutil.isNode && negb (truthy (http2 this)) then
       log_i "created custom http2 client";;
       mret {| http2 := Some node.import_http2;
               nodeUtil := nodeUtil this;
               transport := transport this;
               preferredDohResolvers := preferredDohResolvers this |}
     else mret this);
  this ←
    (if envutil.isNode && negb (truthy (nodeUtil this)) then
       log_i "imported node-util";;
       mret {| http2 := http2 this;
               nodeUtil := Some node.import_util;
               transport := transport this;
               preferredDohResolvers := preferredDohResolvers this |}
     else mret this);
  if envutil.isNode && negb (truthy (transport this)) then
    let plainOldDnsIp := dnsutil.dnsIpv4 in
    log_i "created udp/tcp dns transport";;
    mret {| http2 := http2 this;
            nodeUtil := nodeUtil this;
            transport := Some (node.new_Transport plainOldDnsIp 53);
            preferredDohResolvers := preferredDohResolvers this |}
  else mret this.

Definition determineDohResolvers (this : DNSResolver) (param : Param) : value :=
  (* when this.transport is set, do not use doh *)
  if truthy (transport this) then VArr []
  else
    let preferredByUser := userDnsResolverUrl param in
    if negb (util.emptyString preferredByUser) then VArr [preferredByUser]
    else if envutil.isWorkers then VArr (preferredDohResolvers this)
    else envutil.dohResolver.

(** [new URL(s)] *)
Definition new_URL (s : string) : M URL :=
  match url.parse s with
  | Some u => mret u
  | None => throw (TypeError "Invalid URL")
  end.

(** *** [doh2] *)

(** One registered closure called with what the event carries. *)
Definition call (nu : NodeUtil) (close_throws : option exn)
    (l : listener) (ev : h2event) (s : session) : session :=
  match l, ev with
  | conn_error, ConnectionError message =>
      h2.settle (Rejected (Reason message)) s
  | stream_response, ResponseHeaders hdrs =>
      let '(b, s) := h2.new_array s in
      let s := h2.on Stream "data" (stream_data b) s in
      h2.on Stream "end" (stream_end b hdrs) s
  | stream_data b, Data chunk => h2.push b chunk s
  | stream_end b hdrs, End_ =>
      let rb := bufutil.concatBuf (default [] (arrays s !! b)) in
      let h := transformPseudoHeaders nu hdrs in
      let s := h2.safeBox (h2.close close_throws) s in
      h2.settle (Fulfilled (new_Response rb h)) s
  | stream_error, StreamError message =>
      h2.settle (Rejected (Reason message)) s
  | _, _ => s
  end.

(** The emitter calls the closures registered for the event when it is
    emitted, in the order of their registration. *)
Definition deliver (nu : NodeUtil) (close_throws : option exn)
    (s : session) (ev : h2event) : session :=
  let called := filter (λ entry, entry.1 = emitted_on ev) (listeners s) in
  foldl (λ s entry, call nu close_throws entry.2 ev s) s called.

(** The session after the connection and the stream emitted [evs]. *)
Definition exchange (nu : NodeUtil) (close_throws : option exn)
    (s : session) (evs : list h2event) : session :=
  foldl (deliver nu close_throws) s evs.

Definition no_session : session :=
  {| listeners := []; arrays := []; actions := []; promise_state := None |}.

(** The function given to [new Promise]. *)
Definition executor (h2m : Http2) (request : Request) (u : URL)
    (hdrs : headers) (upstreamQuery : bytes) : session :=
  let authority := url.origin u in
  let s := h2.act (Connect authority) no_session in
  let s := h2.on Conn "error" conn_error s in
  let s := h2.act (OpenStream ((HTTP2_HEADER_METHOD h2m, req_method request)
                               :: (HTTP2_HEADER_PATH h2m, pathname u)
                               :: hdrs)) s in
  let s := h2.on Stream "response" stream_response s in
  (* nodejs' async err events go unhandled when the handler
     is not registered, which ends up killing the process *)
  let s := h2.on Stream "error" stream_error s in
  (* req.end write query to upstream over http2 *)
  h2.act (EndWrite upstreamQuery) s.

(** [doh2] up to the promise it returns: the session its executor leaves
    behind. *)
Definition doh2 (this : DNSResolver) (request : Request) : M session :=
  match http2 this, nodeUtil this with
  | Some h2m, Some nu =>
      log_d "upstream with doh2";;
      u ← new_URL (req_url request);
      let upstreamQuery := bufutil.bufferOf (default [] (req_body request)) in
      let hdrs := util.copyHeaders request in
      mret (executor h2m request u hdrs upstreamQuery)
  | _, _ => throw (Error "h2 / node-util not setup, bailing")
  end.

(** Calling an [async] function: what it does happens, how it ends stays
    in the promise. *)
Definition spawn {A} (m : M A) : M unit := Run (trace m) (Return tt).

(** The body of the loop up to [dnsreq]: the request for one resolver.
    [return Promise.reject(e)] in an [async] function rejects the
    function's promise with [e], as [throw e] does. *)
Definition upstream_request (request : Request) (rurl : value)
    (query : bytes) : M Request :=
  u ← new_URL (req_url request);
  upstream ← new_URL (to_string rurl);
  let u := url.set_hostname (hostname upstream) u in
  let u := url.set_pathname (pathname upstream) u in
  let u := url.set_port (port upstream) u in
  let u := url.set_protocol (protocol upstream) u in
  if util.isGetRequest request then
    let u := url.set_search ("?dns=" +:+ bufutil.bytesToBase64Url query) u in
    mret {| req_url := url.href u; req_method := "GET";
            req_headers := []; req_body := None |}
  else if util.isPostRequest request then
    mret {| req_url := url.href u; req_method := "POST";
            req_headers :=
              util.concatHeaders (util.contentLengthHeader query)
                                 util.dnsHeaders;
            req_body := Some query |}
  else throw (Error "get/post requests only").

(** [this.http2 ? this.doh2(rxid, dnsreq) : fetch(dnsreq)] *)
Definition attempt (this : DNSResolver) (dnsreq : Request) : M promise :=
  if truthy (http2 this) then
    emit (Doh2 dnsreq);; spawn (doh2 this dnsreq);; mret (PDoh2 dnsreq)
  else emit (Fetch dnsreq);; mret (PFetch dnsreq).

(** The [for (const rurl of resolverUrls)] loop. *)
Fixpoint attempts (this : DNSResolver) (request : Request) (query : bytes)
    (rurls : list value) (promisedRes : list promise) : M (list promise) :=
  match rurls with
  | [] => mret promisedRes
  | rurl :: rurls =>
      if util.emptyString rurl then
        log_w "missing resolver url";;
        attempts this request query rurls promisedRes
      else
        dnsreq ← upstream_request request rurl query;
        p ← attempt this dnsreq;
        attempts this request query rurls (promisedRes ++ [p])
  end.

(** One query over the plain transport. *)
Definition ask (ev : event) (r : reply) : M (option bytes) :=
  emit ev;;
  match r with
  | Answered ans => mret (Some ans)
  | NoAnswer => mret None
  | Failed e => throw e
  end.

Definition plain_dns (this : DNSResolver) (query : bytes) : M awaited :=
  let q := bufutil.bufferOf query in
  match transport this with
  | None => throw (TypeError "Cannot read properties of null")
  | Some t =>
      ans ← ask (UdpQuery q) (udpquery t q);
      ans ←
        match ans with
        | Some a =>
            if dnsutil.truncated a then
              log_w "ans truncated, retrying over tcp";;
              ask (TcpQuery q) (tcpquery t q)
            else mret ans
        | None => mret ans
        end;
      mret (Resolved match ans with
                     | Some a => new_Response (bufutil.arrayBufferOf a) no_init
                     | None => respond503
                     end)
  end.

Definition sentinel : promise := PReject (Error "no upstream").

Definition resolveDnsUpstream (this : DNSResolver) (request : Request)
    (resolverUrls : value) (query : bytes) : M awaited :=
  (* if no doh upstreams set, resolve over plain-old dns *)
  if util.emptyArray resolverUrls then plain_dns this query
  else
    match iterate resolverUrls with
    | None => throw (TypeError "resolverUrls is not iterable")
    | Some rurls =>
        promisedRes ← attempts this request query rurls [sentinel];
        mret (Any promisedRes)
    end.





(** *** Awaiting the upstream result *)

(** How the promise at [index] of [promisedRes] settles, if it does. *)
Definition fate (w : World) (this : DNSResolver) (index : nat)
    (p : promise) : option settled :=
  match p with
  | PReject e => Some (Rejected e)
  | PFetch req => fetch_fate w index req
  | PDoh2 req =>
      match outcome (doh2 this req), nodeUtil this with
      | Return s, Some nu =>
          promise_state
            (exchange nu (close_throws w) s (h2_emits w index req))
      | Throw e, _ => Some (Rejected e)
      | _, _ => None
      end
  end.

Definition fates (w : World) (this : DNSResolver)
    (promisedRes : list promise) : list (option settled) :=
  imap (fate w this) promisedRes.

Definition await (w : World) (this : DNSResolver) (a : awaited)
    : M Response :=
  match a with
  | Resolved r => mret r
  | Any promisedRes =>
      match PromiseAny.any (fates w this promisedRes) (settle_order w) with
      | Some (Fulfilled v) => mret v
      | Some (Rejected e) => throw e
      | None => Run [] Pending
      end
  end.

Definition decodeResponse (response : option Response)
    : M (Answer Packet) :=
  match response with
  | None => throw (Error "no upstream result")
  | Some response =>
      if negb (ok response) then
        emit BodyText;;
        log_d "!OK";;
        throw (Error (pretty (status response) +:+ " http err: "
                      +:+ statusText response))
      else
        emit BodyArrayBuffer;;
        let dnsBuffer := res_body response in
        emit (Decode dnsBuffer);;
        match dnsutil.decode dnsBuffer with
        | inr dnsPacket =>
            mret {| dnsPacket := dnsPacket; dnsBuffer := dnsBuffer |}
        | inl e => throw e
        end
  end.

Definition resolveDns (w : World) (this : DNSResolver) (param : Param)
    : M (Answer Packet) :=
  let upstreams := determineDohResolvers this param in
  upRes ← (resolveDnsUpstream this (request param) upstreams
             (requestBodyBuffer param) ≫= await w this);
  decodeResponse (Some upRes).

(** [RethinkModule] with its call of [lazyInit] run alone.  Only
    [resolveDns] is inside the [try]: [await this.lazyInit()] and
    [util.emptyResponse()] (lines 57-58) come before it, and what they
    throw is not caught. *)
Definition RethinkModule (w : World) (this : DNSResolver) (param : Param)
    : M (DNSResolver * envelope Packet) :=
  this ← lazyInit this;
  response ←
    try_catch
      (data ← resolveDns w this param; mret (WithData data))
      (λ e, log_e "main";; mret (ErrResponse "dnsResolver" e));
  mret (this, response).

End Resolver.

(** ** [lazyInit], call by call

    [lazyInit] is suspended at each [await import(...)], after the test of
    a field and before the assignment to it, and other calls on the same
    resolver run meanwhile.  A call is at one of the points below.
    [Call] starts a call, which runs to its first [await] or to its end;
    [Resume i] delivers the module call [i] waits for, and the call runs
    on to its next [await] or to its end; [Reject i e] fails the import
    call [i] waits for, or the constructor of its transport, with [e]. *)
Module LazyInit.

Inductive point :=
| AwaitHttp2                              (* line 28 *)
| AwaitNodeUtil                           (* line 32 *)
| AwaitTransport (plainOldDnsIp : string) (* line 38 *)
| Ended (e : option exn).                 (* returned, or rejected with [e] *)

Inductive tick :=
| Call
| Resume (i : nat)
| Reject (i : nat) (e : exn).

(** The resolver the calls share, the calls in the order they were made,
    and what has been logged. *)
Record state := {
  resolver : DNSResolver;
  calls : list point;
  logged : list event;
}.

Section Steps.
Context {Packet : Type}.
Context `{!envutil.t, !dnsutil.t Packet, !node.t}.

(** The third test and what follows it, down to the [await]. *)
Definition third (this : DNSResolver) : point :=
  if envutil.isNode && negb (truthy (transport this)) then
    AwaitTransport dnsutil.dnsIpv4
  else Ended None.

(** The second test and what follows it. *)
Definition second (this : DNSResolver) : point :=
  if envutil.isNode && negb (truthy (nodeUtil this)) then AwaitNodeUtil
  else third this.

(** The first test and what follows it. *)
Definition first (this : DNSResolver) : point :=
  if envutil.isNode && negb (truthy (http2 this)) then AwaitHttp2
  else second this.

(** A call resumed at [p] on the resolver as it is by then: the
    assignment, the log line, and the tests that follow. *)
Definition resume (this : DNSResolver) (p : point)
    : DNSResolver * point * list event :=
  match p with
  | AwaitHttp2 =>
    let this := {| http2 := Some node.import_http2;
                   nodeUtil := nodeUtil this;
                   transport := transport this;
                   preferredDohResolvers := preferredDohResolvers this |} in
    (this, second this, [Log "i" "created custom http2 client"])
  | AwaitNodeUtil =>
    let this := {| http2 := http2 this;
                   nodeUtil := Some node.import_util;
                   transport := transport this;
                   preferredDohResolvers := preferredDohResolvers this |} in
    (this, third this, [Log "i" "imported node-util"])
  | AwaitTransport plainOldDnsIp =>
    let this := {| http2 := http2 this;
                   nodeUtil := nodeUtil this;
                   transport := Some (node.new_Transport plainOldDnsIp 53);
                   preferredDohResolvers := preferredDohResolvers this |} in
    (this, Ended None, [Log "i" "created udp/tcp dns transport"])
  | Ended _ => (this, p, [])
  end.

Definition step (st : state) (t : tick) : state :=
  match t with
  | Call =>
    {| resolver := resolver st;
       calls := calls st ++ [first (resolver st)];
       logged := logged st |}
  | Resume i =>
    match calls st !! i with
    | Some p =>
      {| resolver := (resume (resolver st) p).1.1;
         calls := <[i:=(resume (resolver st) p).1.2]> (calls st);
         logged := logged st ++ (resume (resolver st) p).2 |}
    | None => st
    end
  | Reject i e =>
    match calls st !! i with
    | Some (Ended _) | None => st
    | Some _ =>
      {| resolver := resolver st;
         calls := <[i:=Ended (Some e)]> (calls st);
         logged := logged st |}
    end
  end.

Definition run (st : state) (ts : list tick) : state := foldl step st ts.

(** No call made yet. *)
Definition init (this : DNSResolver) : state :=
  {| resolver := this; calls := []; logged := [] |}.

(** All three of the lazily imported fields are set. *)
Definition initialised (this : DNSResolver) : Prop :=
  is_Some (http2 this) ∧ is_Some (nodeUtil this) ∧ is_Some (transport this).

(** What a call at [p] on node has seen set, or has set itself. *)
Definition reached (p : point) (this : DNSResolver) : Prop :=
  match p with
  | AwaitHttp2 => True
  | AwaitNodeUtil => is_Some (http2 this)
  | AwaitTransport _ => is_Some (http2 this) ∧ is_Some (nodeUtil this)
  | Ended None => initialised this
  | Ended (Some _) => True
  end.

(** No field that is set in [this] is unset in [this']. *)
Definition grows (this this' : DNSResolver) : Prop :=
  (is_Some (http2 this) → is_Some (http2 this'))
  ∧ (is_Some (nodeUtil this) → is_Some (nodeUtil this'))
  ∧ (is_Some (transport this) → is_Some (transport this')).

End Steps.
End LazyInit.

(** ** Vocabulary of the properties *)

Section Vocabulary.
Context {Packet : Type}.
Context `{!envutil.t, !bufutil.t, !dnsutil.t Packet, !util.t, !url.t, !node.t}.

(** Whether the UDP reply makes the resolver go on to TCP. *)
Definition escalates (udp : reply) : bool :=
  match udp with
  | Answered ans => dnsutil.truncated ans
  | _ => false
  end.

(** What a reply, taken as the final one, makes of the resolution. *)
Definition outcome_of (r : reply) : completion awaited :=
  match r with
  | Answered ans =>
      Return (Resolved (new_Response (bufutil.arrayBufferOf ans) no_init))
  | NoAnswer => Return (Resolved respond503)
  | Failed e => Throw e
  end.

Definition network (t : list event) : list event :=
  filter (λ ev, is_network ev) t.

(** The error [decodeResponse] throws for a response that is not ok. *)
Definition http_err (r : Response) : exn :=
  Error (pretty (status r) +:+ " http err: " +:+ statusText r).

Definition decoded (t : list event) : list event :=
  filter (λ ev, is_decode ev) t.

(** The resolver urls the loop does not skip. *)
Definition nonblank (rurls : list value) : list value :=
  filter (λ rurl, util.emptyString rurl = false) rurls.

Definition is_attempt (p : promise) : Prop :=
  match p with PReject _ => False | _ => True end.

(** The http2 client is only ever there together with the transport. *)
Definition coupled (this : DNSResolver) : Prop :=
  is_Some (http2 this) → is_Some (transport this).

Definition no_doh2 (t : list event) : Prop :=
  Forall (λ ev, is_doh2 ev = false) t.



Definition is_close (a : h2action) : bool :=
  match a with Close => true | _ => false end.

(** [c.close] was called (which is not to say that the connection was
    closed: see [h2.close]). *)
Definition close_called (s : session) : Prop :=
  Exists (λ a, is_close a = true) (actions s).

(** The call that created a promise of the race, if a call did. *)
Definition call_of (p : promise) : option event :=
  match p with
  | PReject _ => None
  | PFetch req => Some (Fetch req)
  | PDoh2 req => Some (Doh2 req)
  end.

(** The request an attempt was dispatched with. *)
Definition request_of (ev : event) : option Request :=
  match ev with
  | Fetch req | Doh2 req => Some req
  | _ => None
  end.

Definition is_transport_call (ev : event) : bool :=
  match ev with UdpQuery _ | TcpQuery _ => true | _ => false end.

Definition is_doh_call (ev : event) : bool :=
  match ev with Fetch _ | Doh2 _ => true | _ => false end.

(** The request the loop builds out of the incoming [request]: a GET
    without body, or a POST carrying the query. *)
Definition shaped (request : Request) (query : bytes) (dnsreq : Request)
    : Prop :=
  (util.isGetRequest request = true
   ∧ req_method dnsreq = "GET"
   ∧ req_headers dnsreq = []
   ∧ req_body dnsreq = None)
  ∨ (util.isGetRequest request = false
     ∧ util.isPostRequest request = true
     ∧ req_method dnsreq = "POST"
     ∧ req_headers dnsreq
       = util.concatHeaders (util.contentLengthHeader query) util.dnsHeaders
     ∧ req_body dnsreq = Some query).

(** The events of a stream that is still delivering: headers and data. *)
Definition is_progress (ev : h2event) : bool :=
  match ev with ResponseHeaders _ | Data _ => true | _ => false end.

(** The events that carry an error, with its message. *)
Definition error_message (ev : h2event) : option string :=
  match ev with
  | ConnectionError message | StreamError message => Some message
  | _ => None
  end.

(** The listeners [doh2] has registered once its executor has run: the three
    of the executor, then the data and end listeners of the responses seen
    so far. *)
Definition wired (s : session) : Prop :=
  ∃ later,
    listeners s
    = [(Conn, "error", conn_error); (Stream, "response", stream_response);
       (Stream, "error", stream_error)] ++ later
    ∧ Forall (λ entry, entry.1 = (Stream, "data") ∨ entry.1 = (Stream, "end"))
        later.

(** The warning the loop logs for a resolver url it skips. *)
Definition skipped : event := Log "w" "missing resolver url".

(** What the loop throws at a resolver url that is not blank when the
    method is neither GET nor POST: the error of the method guard, unless
    [new URL] has thrown before it. *)
Definition guard_error (request : Request) (rurl : value) : exn :=
  match url.parse (req_url request), url.parse (to_string rurl) with
  | Some _, Some _ => Error "get/post requests only"
  | _, _ => TypeError "Invalid URL"
  end.

End Vocabulary.

(** ** A concrete deployment

    Implementations of the imported modules to run the model on: the
    predicates of [util] on the values this file has, a two-resolver
    configuration, and a [URL] that reads [https://host/path]. *)
Module Sample.

Definition cloudflare : string := "https://cloudflare-dns.com/dns-query".
Definition google : string := "https://dns.google/dns-query".

Definition env (isNode isWorkers : bool) (primary secondary : value)
    : envutil.t :=
  {| envutil.isNode := isNode;
     envutil.isWorkers := isWorkers;
     envutil.dohResolver := primary;
     envutil.secondaryDohResolver := secondary |}.

(** The three kinds of runtime, configured with two resolvers, and a
    Workers deployment whose resolvers were left unset. *)
Definition on_node : envutil.t := env true false (VStr cloudflare) (VStr google).
Definition on_workers : envutil.t :=
  env false true (VStr cloudflare) (VStr google).
Definition elsewhere : envutil.t :=
  env false false (VStr cloudflare) (VStr google).
Definition unconfigured : envutil.t := env false true VNull VNull.

(** Buffers are byte lists whatever their JavaScript class; the text form
    of a query is a stand-in for base64url (the digits of its bytes). *)
#[export] Instance buf : bufutil.t :=
  {| bufutil.bufferOf := id;
     bufutil.arrayBufferOf := id;
     bufutil.bytesToBase64Url q :=
       String.concat "" (map (λ b, pretty (Byte.to_N b)) q);
     bufutil.concatBuf chunks := mjoin chunks |}.

(** The TC bit is bit 1 of the third byte of a DNS message. *)
#[export] Instance dns : dnsutil.t bytes :=
  {| dnsutil.dnsIpv4 := "1.1.1.1";
     dnsutil.truncated ans :=
       match ans !! 2%nat with
       | Some flags => N.testbit (Byte.to_N flags) 1
       | None => false
       end;
     dnsutil.decode buf :=
       if decide (12 ≤ length buf)%nat then inr buf
       else inl (Error "packet too short") |}.

#[export] Instance utl : util.t :=
  {| util.emptyString v :=
       match v with
       | VNull => true
       | VStr s => bool_decide (s = "")
       | VArr _ => false
       end;
     util.emptyArray v :=
       match v with
       | VNull => true
       | VStr _ => false
       | VArr elems => bool_decide (elems = [])
       end;
     util.isGetRequest r := bool_decide (req_method r = "GET");
     util.isPostRequest r := bool_decide (req_method r = "POST");
     util.contentLengthHeader q := [("content-length", pretty (length q))];
     util.dnsHeaders := [("accept", "application/dns-message");
                         ("content-type", "application/dns-message")];
     util.concatHeaders h1 h2 := h1 ++ h2;
     util.copyHeaders := req_headers |}.

Definition default_port (protocol : string) : string :=
  if bool_decide (protocol = "https:") then "443"
  else if bool_decide (protocol = "http:") then "80"
  else "".

(** [at_first c s]: [s] cut in two at its first [c], which goes with the
    second part when [keep] is set. *)
Definition at_first (c : string) (keep : bool) (s : string)
    : string * string :=
  match String.index 0 c s with
  | Some i =>
      let j := if keep then i else S i in
      (String.substring 0 i s, String.substring j (String.length s - j) s)
  | None => (s, "")
  end.

(** What follows [scheme://]: host, optional port, path, optional query. *)
Definition parse_after (protocol rest : string) : option URL :=
  let '(authority, path) := at_first "/" true rest in
  let '(host, port) := at_first ":" false authority in
  let '(pathname, search) := at_first "?" true path in
  if bool_decide (host = "") then None
  else Some {| protocol := protocol;
               hostname := host;
               port := if bool_decide (port = default_port protocol) then ""
                       else port;
               pathname := if bool_decide (pathname = "") then "/"
                           else pathname;
               search := search |}.

Definition parse_url (s : string) : option URL :=
  if String.prefix "https://" s then
    parse_after "https:" (String.substring 8 (String.length s - 8) s)
  else if String.prefix "http://" s then
    parse_after "http:" (String.substring 7 (String.length s - 7) s)
  else None.

Definition host_of (u : URL) : string :=
  if bool_decide (port u = "") then hostname u
  else hostname u +:+ ":" +:+ port u.

(** The setters as the URL standard has them for http and https: an empty
    host is refused, and a port that is the default of the scheme is not
    kept, be it on setting the port or on setting the scheme. *)
#[export] Instance urls : url.t :=
  {| url.parse := parse_url;
     url.href u := protocol u +:+ "//" +:+ host_of u +:+ pathname u
                   +:+ search u;
     url.origin u := protocol u +:+ "//" +:+ host_of u;
     url.set_hostname h u :=
       if bool_decide (h = "") then u
       else {| protocol := protocol u; hostname := h; port := port u;
               pathname := pathname u; search := search u |};
     url.set_pathname p u :=
       {| protocol := protocol u; hostname := hostname u; port := port u;
          pathname := p; search := search u |};
     url.set_port p u :=
       {| protocol := protocol u; hostname := hostname u;
          port := if bool_decide (p = default_port (protocol u)) then ""
                  else p;
          pathname := pathname u; search := search u |};
     url.set_protocol pr u :=
       {| protocol := pr; hostname := hostname u;
          port := if bool_decide (port u = default_port pr) then ""
                  else port u;
          pathname := pathname u; search := search u |};
     url.set_search q u :=
       {| protocol := protocol u; hostname := hostname u; port := port u;
          pathname := pathname u; search := q |} |}.

(** A plain resolver that answers every query with [udp] and [tcp]. *)
Definition replies (udp tcp : reply) : Transport :=
  {| udpquery _ := udp; tcpquery _ := tcp |}.

#[export] Instance nodejs : node.t :=
  {| node.import_http2 :=
       {| HTTP2_HEADER_METHOD := ":method"; HTTP2_HEADER_PATH := ":path" |};
     node.import_util :=
       {| transformPseudoHeaders hdrs :=
            {| init_status := None; init_statusText := None;
               init_headers := hdrs |} |};
     node.new_Transport _ _ := replies NoAnswer NoAnswer |}.

Definition get : Request :=
  {| req_url := "https://example.com/dns-query"; req_method := "GET";
     req_headers := []; req_body := None |}.

Definition put : Request :=
  {| req_url := "https://example.com/dns-query"; req_method := "PUT";
     req_headers := []; req_body := None |}.

(** A 12-byte query, and answers without and with the TC bit. *)
Definition query : bytes :=
  [x00; x01; x01; x00; x00; x01;
   x00; x00; x00; x00; x00; x00].
Definition answer : bytes :=
  [x00; x01; x81; x80; x00; x01;
   x00; x01; x00; x00; x00; x00].
Definition truncated_answer : bytes :=
  [x00; x01; x83; x80; x00; x01;
   x00; x00; x00; x00; x00; x00].

Definition param (r : Request) (user : value) : Param :=
  {| rxid := "rx"; request := r; requestBodyBuffer := query;
     userDnsResolverUrl := user |}.

Definition post : Request :=
  {| req_url := "https://example.com/dns-query"; req_method := "POST";
     req_headers := []; req_body := Some query |}.

Definition ok_response : Response := new_Response answer no_init.

(** Nothing ever settles but the initial rejection. *)
Definition quiet : World :=
  {| fetch_fate _ _ := None; h2_emits _ _ := [];
     close_throws := None; settle_order := [0] |}.

(** The first resolver refuses the connection, the others answer; the
    promises settle in the order they were created. *)
Definition first_refused : World :=
  {| fetch_fate index _ :=
       if decide (index = 1)
       then Some (Rejected (TypeError "connection refused"))
       else Some (Fulfilled ok_response);
     h2_emits _ _ := [];
     close_throws := None;
     settle_order := [0; 1; 2] |}.

(** Every resolver refuses the connection. *)
Definition all_refused : World :=
  {| fetch_fate _ _ := Some (Rejected (TypeError "connection refused"));
     h2_emits _ _ := [];
     close_throws := None;
     settle_order := [0; 1; 2] |}.

(** Every resolver answers, the second one first. *)
Definition second_is_faster : World :=
  {| fetch_fate _ _ := Some (Fulfilled ok_response);
     h2_emits _ _ := [];
     close_throws := None;
     settle_order := [0; 2; 1] |}.

Definition server_error : Response :=
  {| status := 500; statusText := "Internal Server Error";
     res_headers := []; res_body := [] |}.

(** The first resolver is quick to fail with a 500, the second answers
    after it. *)
Definition first_fails_fast : World :=
  {| fetch_fate index _ :=
       if decide (index = 1) then Some (Fulfilled server_error)
       else Some (Fulfilled ok_response);
     h2_emits _ _ := [];
     close_throws := None;
     settle_order := [0; 1; 2] |}.

(** The first resolver never replies, the second refuses the connection. *)
Definition first_is_silent : World :=
  {| fetch_fate index _ :=
       if decide (index = 1) then None
       else Some (Rejected (TypeError "connection refused"));
     h2_emits _ _ := [];
     close_throws := None;
     settle_order := [0; 2] |}.

(** The resolver object on node once [lazyInit] has run. *)
Definition node_resolver (t : Transport) : DNSResolver :=
  {| http2 := Some node.import_http2;
     nodeUtil := Some node.import_util;
     transport := Some t;
     preferredDohResolvers := [VStr cloudflare; VStr google] |}.

(** The session [doh2] sets up for the GET request [get]. *)
Definition get_session : session :=
  executor node.import_http2 get
    {| protocol := "https:"; hostname := "example.com"; port := "";
       pathname := "/dns-query"; search := "" |}
    [] [].

Definition response_headers : headers :=
  [(":status", "200"); ("content-type", "application/dns-message")].

End Sample.

(** * Properties *)

(** ** The trace monad *)

Lemma outcome_bind {A B} (m : M A) (k : A → M B) :
  outcome (m ≫= k)
  = match outcome m with
    | Return a => outcome (k a)
    | Throw e => Throw e
    | Pending => Pending
    end.
Proof. unfold mbind, M_bind. by destruct (outcome m). Qed.

Lemma trace_bind {A B} (m : M A) (k : A → M B) :
  trace (m ≫= k)
  = trace m ++ match outcome m with Return a => trace (k a) | _ => [] end.
Proof.
  unfold mbind, M_bind. destruct (outcome m); simpl; by rewrite ?app_nil_r.
Qed.

Ltac run :=
  unfold mbind, M_bind, mret, M_ret, throw, emit,
    log_i, log_w, log_d, log_e; simpl.

(** ** The plain transport path *)

Section PlainTransport.
Context {Packet : Type}.
Context `{!envutil.t, !bufutil.t, !dnsutil.t Packet, !util.t, !url.t, !node.t}.

Lemma plain_dns_run this t query :
  transport this = Some t →
  let q := bufutil.bufferOf query in
  let r := plain_dns this query in
  network (trace r)
    = UdpQuery q :: (if escalates (udpquery t q) then [TcpQuery q] else [])
  ∧ outcome r
    = outcome_of (if escalates (udpquery t q)
                  then tcpquery t q else udpquery t q).
Proof.
  intros Ht. unfold plain_dns, ask, escalates. rewrite Ht.
  destruct (udpquery t _) as [a| |e]; run; [|done..].
  destruct (dnsutil.truncated a); run; [|done].
  by destruct (tcpquery t _).
Qed.

(** C3: on the plain path the resolver asks over UDP first; it asks over
    TCP, once and with the same bytes, exactly when the UDP answer is
    truncated, and then the TCP reply decides the outcome; otherwise the
    UDP reply does and TCP is not used.  At most two queries leave. *)
Theorem plain_path_udp_then_tcp this t request resolverUrls query :
  transport this = Some t →
  util.emptyArray resolverUrls = true →
  let q := bufutil.bufferOf query in
  let r := resolveDnsUpstream this request resolverUrls query in
  let tcp := escalates (udpquery t q) in
  network (trace r) = UdpQuery q :: (if tcp then [TcpQuery q] else [])
  ∧ (length (network (trace r)) ≤ 2)%nat
  ∧ (tcp = true ↔ ∃ ans, udpquery t q = Answered ans
                         ∧ dnsutil.truncated ans = true)
  ∧ (tcp = true → outcome r = outcome_of (tcpquery t q))
  ∧ (tcp = false → (∀ q', TcpQuery q' ∉ trace r)
                   ∧ outcome r = outcome_of (udpquery t q)).
Proof.
  intros Ht Hempty q r tcp. subst r. unfold resolveDnsUpstream.
  rewrite Hempty. destruct (plain_dns_run this t query Ht) as [Hnet Hout].
  fold q tcp in Hnet, Hout. rewrite Hnet, Hout.
  split_and!.
  - done.
  - destruct tcp; simpl; lia.
  - subst tcp. unfold escalates. destruct (udpquery t q) as [a| |e].
    + split; [by exists a|]. by intros (? & [= <-] & ?).
    + split; [done|]. by intros (? & ? & ?).
    + split; [done|]. by intros (? & ? & ?).
  - by intros ->.
  - intros E. rewrite E in Hnet |- *. split; [|done].
    intros q' Hin.
    assert (TcpQuery q' ∈ network (trace (plain_dns this query))) as Hin'.
    { apply list_elem_of_filter. done. }
    rewrite Hnet in Hin'. by apply list_elem_of_singleton in Hin'.
Qed.

(** C8: when the plain transport produces no answer at all, the path
    returns the 503 "service unavailable" response and does not throw. *)
Theorem plain_path_no_answer_503 this t request resolverUrls query :
  transport this = Some t →
  util.emptyArray resolverUrls = true →
  let q := bufutil.bufferOf query in
  (udpquery t q = NoAnswer
   ∨ ∃ ans, udpquery t q = Answered ans
            ∧ dnsutil.truncated ans = true
            ∧ tcpquery t q = NoAnswer) →
  outcome (resolveDnsUpstream this request resolverUrls query)
    = Return (Resolved respond503)
  ∧ status respond503 = 503%N
  ∧ ok respond503 = false.
Proof.
  intros Ht Hempty q Hno. unfold resolveDnsUpstream. rewrite Hempty.
  destruct (plain_dns_run this t query Ht) as [_ ->]. fold q.
  split; [|done].
  destruct Hno as [-> | (ans & -> & Htc & Htcp)]; simpl; [done|].
  by rewrite Htc, Htcp.
Qed.

End PlainTransport.

(** ** The response decoder *)

Section Decoder.
Context {Packet : Type}.
Context `{!envutil.t, !bufutil.t, !dnsutil.t Packet, !util.t, !url.t, !node.t}.

(** C6: a missing outcome fails with "no upstream result"; an outcome that
    is not ok fails with its status code and status text after its body
    was read as text, and nothing of it reaches the codec; an ok outcome,
    and only that, is handed to the codec. *)
Theorem decodeResponse_guards (response : option Response) :
  let r := decodeResponse (Packet := Packet) response in
  match response with
  | None =>
      r = Run [] (Throw (Error "no upstream result"))
  | Some res =>
      if ok res then
        trace r = [BodyArrayBuffer; Decode (res_body res)]
        ∧ outcome r
          = match dnsutil.decode (res_body res) with
            | inr p => Return {| dnsPacket := p; dnsBuffer := res_body res |}
            | inl e => Throw e
            end
      else
        outcome r = Throw (http_err res)
        ∧ decoded (trace r) = []
        ∧ BodyText ∈ trace r
  end
  ∧ ((∃ buf, Decode buf ∈ trace r) ↔ ∃ res, response = Some res ∧ ok res = true).
Proof.
  destruct response as [res|]; simpl.
  - destruct (ok res) eqn:Hok; run.
    + split.
      * by destruct (dnsutil.decode (res_body res)).
      * split; [by exists res|]. intros _. exists (res_body res).
        destruct (dnsutil.decode (res_body res)); simpl;
          apply elem_of_cons; right; apply elem_of_cons; by left.
    + split; [split_and!; [done|done|apply elem_of_cons; by left]|].
      split.
      * intros [buf Hin]. apply elem_of_cons in Hin as [?|Hin]; [done|].
        apply elem_of_cons in Hin as [?|Hin]; [done|].
        by apply elem_of_nil in Hin.
      * intros (res' & [= <-] & Hok'). congruence.
  - split; [done|]. split.
    + intros [buf Hin]. by apply elem_of_nil in Hin.
    + by intros (? & ? & ?).
Qed.

End Decoder.

(** ** [Promise.any] *)

Section PromiseAnyFacts.
Import PromiseAny.
Implicit Types (fates : list (option settled)) (st : state).
Implicit Types (errs : list (option exn)) (order : list nat).

Lemma remaining_pos errs i : errs !! i = Some None → remaining errs ≠ 0.
Proof.
  unfold remaining. intros Hi Hz%nil_length_inv.
  assert (None ∈ filter (λ slot, slot = None) errs) as Hin.
  { apply list_elem_of_filter. split; [done|].
    by eapply list_elem_of_lookup_2. }
  rewrite Hz in Hin. by apply elem_of_nil in Hin.
Qed.

Lemma remaining_filled errs :
  (∀ j, j < length errs → ∃ e, errs !! j = Some (Some e)) →
  remaining errs = 0.
Proof.
  unfold remaining. intros Hall.
  destruct (filter _ errs) as [|slot rest] eqn:E; [done|].
  assert (slot ∈ filter (λ slot, slot = None) errs) as Hin.
  { rewrite E. by left. }
  apply list_elem_of_filter in Hin as [-> Hin].
  apply list_elem_of_lookup in Hin as [j Hj].
  destruct (Hall j) as [e He]; [by eapply lookup_lt_Some|]. congruence.
Qed.

(** Once settled, for ever settled: what settles later changes nothing. *)
Lemma step_settled fates st index x :
  result st = Some x → result (step fates st index) = Some x.
Proof.
  intros Hx. unfold step, on_fulfilled, on_rejected, settle.
  destruct (fates !! index) as [[[v|e]|]|]; try done.
  - by rewrite Hx.
  - destruct (errors st !! index) as [[?|]|]; try done. simpl.
    case_decide; simpl; by rewrite Hx.
Qed.

Lemma foldl_step_settled fates order st x :
  result st = Some x → result (foldl (step fates) st order) = Some x.
Proof.
  revert st. induction order as [|i order IH]; intros st Hx; [done|].
  simpl. apply IH. by apply step_settled.
Qed.

Lemma invariant_init fates : fates ≠ [] → invariant fates (init (length fates)).
Proof.
  intros Hne. split; simpl; try done.
  - by rewrite length_replicate.
  - intros j e [[=] _]%lookup_replicate.
  - intros _. destruct fates as [|f fates]; [done|]. simpl.
    by eapply (remaining_pos _ 0).
Qed.

Lemma invariant_step fates st index :
  invariant fates st → invariant fates (step fates st index).
Proof.
  intros Hinv. pose proof Hinv as [Hlen Herr Hpen Hful Hrej]. unfold step.
  destruct (fates !! index) as [[[v|e]|]|] eqn:Hfate; try done.
  - (* the promise at [index] was fulfilled *)
    unfold on_fulfilled, settle.
    destruct (result st) as [x|] eqn:Hres; [exact Hinv|].
    split; simpl.
    + done.
    + done.
    + done.
    + intros ? [= <-]. by exists index.
    + done.
  - (* the promise at [index] was rejected *)
    unfold on_rejected.
    destruct (errors st !! index) as [[?|]|] eqn:Hslot; try done.
    assert (∀ j e', <[index:=Some e]> (errors st) !! j = Some (Some e') →
                    fates !! j = Some (Some (Rejected e'))) as Herr'.
    { intros j e' Hj. destruct (decide (j = index)) as [->|Hne].
      - rewrite list_lookup_insert_eq in Hj by by eapply lookup_lt_Some.
        by simplify_eq.
      - rewrite list_lookup_insert_ne in Hj by done. by apply Herr. }
    assert (result st = None ∨ ∃ v, result st = Some (Fulfilled v)) as Hres.
    { destruct (result st) as [[v|x]|] eqn:Hres; [by eauto|..|by left].
      destruct (Hrej x) as [Hz _]; [done|]. by apply remaining_pos in Hslot. }
    simpl. case_decide as Hz; unfold settle; simpl.
    + destruct Hres as [Hres|[v Hres]]; rewrite Hres; split; simpl.
      * by rewrite length_insert.
      * done.
      * done.
      * done.
      * by intros ? [= <-].
      * by rewrite length_insert.
      * done.
      * done.
      * intros ? [= <-]. by apply Hful.
      * done.
    + split; simpl.
      * by rewrite length_insert.
      * done.
      * intros _. done.
      * done.
      * intros x Hx. destruct Hres as [Hres|[v Hres]]; congruence.
Qed.

Lemma invariant_foldl fates order st :
  invariant fates st → invariant fates (foldl (step fates) st order).
Proof.
  revert st. induction order as [|i order IH]; intros st Hinv; [done|].
  simpl. by apply IH, invariant_step.
Qed.

Lemma invariant_run fates order : fates ≠ [] → invariant fates (run fates order).
Proof. intros Hne. by apply invariant_foldl, invariant_init. Qed.

(** A slot, once filled, keeps its error. *)
Lemma step_keeps_slot fates st index j e :
  errors st !! j = Some (Some e) →
  errors (step fates st index) !! j = Some (Some e).
Proof.
  intros Hj. unfold step, on_fulfilled, on_rejected, settle.
  destruct (fates !! index) as [[[v|e']|]|]; try done.
  - by destruct (result st).
  - destruct (errors st !! index) as [[?|]|] eqn:Hslot; try done.
    assert (j ≠ index) by congruence.
    simpl. case_decide; simpl; [destruct (result st); simpl|];
      by rewrite list_lookup_insert_ne.
Qed.

Lemma foldl_keeps_slot fates order st j e :
  errors st !! j = Some (Some e) →
  errors (foldl (step fates) st order) !! j = Some (Some e).
Proof.
  revert st. induction order as [|i order IH]; intros st Hj; [done|].
  simpl. by apply IH, step_keeps_slot.
Qed.

(** A rejection that is delivered fills its slot. *)
Lemma step_fills_slot fates st index e :
  length (errors st) = length fates →
  fates !! index = Some (Some (Rejected e)) →
  ∃ e', errors (step fates st index) !! index = Some (Some e').
Proof.
  intros Hlen Hfate. unfold step, on_rejected, settle. rewrite Hfate.
  assert (index < length (errors st)) as Hlt.
  { rewrite Hlen. by eapply lookup_lt_Some. }
  destruct (errors st !! index) as [[e'|]|] eqn:Hslot.
  - by exists e'.
  - exists e. simpl. case_decide; simpl; [destruct (result st); simpl|];
      by rewrite list_lookup_insert_eq.
  - by apply lookup_ge_None in Hslot; lia.
Qed.

Lemma run_fills_slot fates order st index e :
  invariant fates st →
  fates !! index = Some (Some (Rejected e)) →
  index ∈ order →
  errors (foldl (step fates) st order) !! index = Some (Some e).
Proof.
  revert st. induction order as [|i order IH]; intros st Hinv Hfate Hin.
  { by apply elem_of_nil in Hin. }
  simpl. apply elem_of_cons in Hin as [<-|Hin].
  - destruct (step_fills_slot fates st index e) as [e' He'];
      [by apply inv_length|done|].
    assert (e' = e) as ->.
    { apply invariant_step with (index := index) in Hinv.
      apply (inv_errors _ _ Hinv) in He'. congruence. }
    by apply foldl_keeps_slot.
  - apply IH; [by apply invariant_step|done..].
Qed.

(** The first success wins: with a single promise that is fulfilled, the
    race settles with its value as soon as that promise settles. *)
Lemma any_single_success fates order i v :
  fates !! i = Some (Some (Fulfilled v)) →
  (∀ j v', fates !! j = Some (Some (Fulfilled v')) → j = i) →
  i ∈ order →
  any fates order = Some (Fulfilled v).
Proof.
  intros Hi Honly Hin.
  assert (fates ≠ []) as Hne by (by intros ->).
  assert (∀ st, invariant fates st →
            result st = None ∨ result st = Some (Fulfilled v)) as Hcases.
  { intros st Hinv. destruct (result st) as [[v'|x]|] eqn:Hres; [..|by left].
    - destruct (inv_fulfilled _ _ Hinv v' Hres) as [j Hj].
      apply Honly in Hj as Hji. subst j. right. congruence.
    - destruct (inv_rejected _ _ Hinv x Hres) as [Hz _]. exfalso.
      assert (i < length (errors st)) as Hlt.
      { rewrite (inv_length _ _ Hinv). by eapply lookup_lt_Some. }
      apply lookup_lt_is_Some in Hlt as [[e|] Hslot].
      + apply (inv_errors _ _ Hinv) in Hslot. congruence.
      + by apply remaining_pos in Hslot. }
  apply list_elem_of_split in Hin as (before & after & ->).
  unfold any, run. rewrite foldl_app. simpl.
  apply foldl_step_settled.
  set (st := foldl (step fates) (init (length fates)) before).
  assert (invariant fates st) as Hinv
    by by apply invariant_foldl, invariant_init.
  unfold step. rewrite Hi. unfold on_fulfilled, settle.
  destruct (Hcases st Hinv) as [Hres|Hres]; by rewrite Hres.
Qed.

(** Nothing is fulfilled out of rejections. *)
Lemma any_never_fulfilled fates order v :
  fates ≠ [] →
  (∀ j v', fates !! j ≠ Some (Some (Fulfilled v'))) →
  any fates order ≠ Some (Fulfilled v).
Proof.
  intros Hne Hnone Hres.
  destruct (inv_fulfilled _ _ (invariant_run fates order Hne) v Hres)
    as [j Hj].
  by apply Hnone in Hj.
Qed.

(** When every promise is rejected and all have settled, the race is
    rejected with the errors of all of them, in the order of the
    promises. *)
Lemma any_all_rejected (es : list exn) order :
  es ≠ [] →
  (∀ j, j < length es → j ∈ order) →
  any ((λ e, Some (Rejected e)) <$> es) order
    = Some (Rejected (AggregateError es)).
Proof.
  intros Hne Hall. set (fates := (λ e, Some (Rejected e)) <$> es).
  assert (fates ≠ []) as Hne' by (by destruct es).
  pose proof (invariant_run fates order Hne') as Hinv.
  assert (errors (run fates order) = Some <$> es) as Herrs.
  { apply list_eq. intros j. rewrite list_lookup_fmap.
    destruct (es !! j) as [e|] eqn:Hj; simpl.
    - apply run_fills_slot.
      + by apply invariant_init.
      + unfold fates. by rewrite list_lookup_fmap, Hj.
      + apply Hall. by eapply lookup_lt_Some.
    - apply lookup_ge_None. rewrite (inv_length _ _ Hinv).
      unfold fates. rewrite length_fmap. by apply lookup_ge_None. }
  assert (remaining (errors (run fates order)) = 0) as Hz.
  { apply remaining_filled. intros j Hj. rewrite Herrs in Hj |- *.
    rewrite length_fmap in Hj. apply lookup_lt_is_Some in Hj as [e He].
    exists e. by rewrite list_lookup_fmap, He. }
  unfold any. destruct (result (run fates order)) as [[v|x]|] eqn:Hres.
  - destruct (inv_fulfilled _ _ Hinv v Hres) as [j Hj].
    unfold fates in Hj. rewrite list_lookup_fmap in Hj.
    by destruct (es !! j).
  - destruct (inv_rejected _ _ Hinv x Hres) as [_ ->].
    rewrite Herrs. do 3 f_equal.
    clear. induction es as [|e es IH]; [done|]. simpl. by f_equal.
  - by apply (inv_pending _ _ Hinv) in Hres.
Qed.

End PromiseAnyFacts.

(** ** The race over the DoH endpoints *)

Section Race.
Context {Packet : Type}.
Context `{!envutil.t, !bufutil.t, !dnsutil.t Packet, !util.t, !url.t, !node.t}.

Lemma outcome_attempt this dnsreq :
  outcome (attempt this dnsreq)
  = Return (if truthy (http2 this) then PDoh2 dnsreq else PFetch dnsreq).
Proof. unfold attempt. by destruct (truthy (http2 this)). Qed.

(** Up to the promise it returns, [doh2] only logs. *)
Lemma doh2_no_network this dnsreq :
  filter (λ ev, is_network ev) (trace (doh2 this dnsreq)) = [].
Proof.
  unfold doh2, new_URL.
  destruct (http2 this), (nodeUtil this); try done.
  by destruct (url.parse _).
Qed.

(** The loop only ever appends attempts to [promisedRes]. *)
Lemma attempts_extends this request query rurls acc ps :
  outcome (attempts this request query rurls acc) = Return ps →
  ∃ more, ps = acc ++ more ∧ Forall is_attempt more.
Proof.
  revert acc. induction rurls as [|rurl rurls IH]; intros acc; simpl.
  { intros [= <-]. exists []. by rewrite app_nil_r. }
  destruct (util.emptyString rurl).
  { rewrite outcome_bind. simpl. apply IH. }
  rewrite outcome_bind.
  destruct (outcome (upstream_request request rurl query)) as [dnsreq|e|];
    [|done..].
  rewrite outcome_bind, outcome_attempt. intros Hps.
  apply IH in Hps as (more & -> & Hmore).
  eexists (_ :: more). rewrite <- app_assoc. split; [done|].
  constructor; [|done]. by destruct (truthy (http2 this)).
Qed.

Lemma race_starts_with_sentinel this request resolverUrls query ps :
  outcome (resolveDnsUpstream this request resolverUrls query)
    = Return (Any ps) →
  ∃ more, ps = sentinel :: more ∧ Forall is_attempt more.
Proof.
  unfold resolveDnsUpstream. destruct (util.emptyArray resolverUrls).
  { destruct (transport this) as [t|] eqn:Ht.
    - destruct (plain_dns_run this t query Ht) as [_ ->].
      by destruct (if escalates _ then _ else _).
    - unfold plain_dns. by rewrite Ht. }
  destruct (iterate resolverUrls) as [rurls|]; [|done].
  rewrite outcome_bind.
  destruct (outcome (attempts _ _ _ _ _)) as [ps'| |] eqn:Hps; [|done..].
  intros [= <-]. by apply attempts_extends in Hps.
Qed.

(** With a GET or a POST and urls the platform can parse, the loop runs to
    its end and makes one attempt per resolver url it does not skip. *)
Lemma attempts_one_per_endpoint this request query rurls acc :
  util.isGetRequest request || util.isPostRequest request = true →
  is_Some (url.parse (req_url request)) →
  Forall (λ rurl, is_Some (url.parse (to_string rurl))) (nonblank rurls) →
  ∃ more,
    outcome (attempts this request query rurls acc) = Return (acc ++ more)
    ∧ length more = length (nonblank rurls)
    ∧ length (network (trace (attempts this request query rurls acc)))
      = length (nonblank rurls).
Proof.
  intros Hmethod [u Hu]. revert acc.
  induction rurls as [|rurl rurls IH]; intros acc Hparse.
  { exists []. by rewrite app_nil_r. }
  unfold nonblank in Hparse |- *. rewrite filter_cons in Hparse |- *.
  cbn [attempts]. destruct (util.emptyString rurl) eqn:Hblank.
  { rewrite decide_False in Hparse |- * by done.
    rewrite outcome_bind, trace_bind. simpl. by apply IH. }
  rewrite decide_True in Hparse |- * by done.
  apply Forall_cons in Hparse as [[up Hup] Hparse].
  assert (∃ dnsreq, upstream_request request rurl query
                    = Run [] (Return dnsreq)) as [dnsreq Hreq].
  { unfold upstream_request, new_URL. rewrite Hu, Hup. run.
    destruct (util.isGetRequest request); [by eexists|].
    destruct (util.isPostRequest request); [by eexists|done]. }
  rewrite Hreq. run.
  destruct (IH (acc ++ [if truthy (http2 this) then PDoh2 dnsreq
                        else PFetch dnsreq]) Hparse)
    as (more & Hout & Hlen & Hnet).
  exists ((if truthy (http2 this) then PDoh2 dnsreq else PFetch dnsreq)
          :: more).
  unfold attempt, network in *.
  destruct (truthy (http2 this)); run; rewrite Hout, <- app_assoc; simpl;
    (split; [done|]); (split; [by rewrite Hlen|]).
  - rewrite app_nil_r, filter_app, length_app, Hnet.
    by rewrite (doh2_no_network this dnsreq).
  - by rewrite Hnet.
Qed.

(** So the race is on for every well-formed GET or POST: one attempt leaves
    for each resolver url that is not blank, and [Promise.any] gets them
    after the initial rejection. *)
Lemma resolveDnsUpstream_builds_race this request resolverUrls query rurls :
  util.emptyArray resolverUrls = false →
  iterate resolverUrls = Some rurls →
  util.isGetRequest request || util.isPostRequest request = true →
  is_Some (url.parse (req_url request)) →
  Forall (λ rurl, is_Some (url.parse (to_string rurl))) (nonblank rurls) →
  let r := resolveDnsUpstream this request resolverUrls query in
  ∃ more,
    outcome r = Return (Any (sentinel :: more))
    ∧ length more = length (nonblank rurls)
    ∧ length (network (trace r)) = length (nonblank rurls).
Proof.
  intros Hdoh Hiter Hmethod Hu Hparse r. subst r.
  unfold resolveDnsUpstream. rewrite Hdoh, Hiter.
  destruct (attempts_one_per_endpoint this request query rurls [sentinel]
              Hmethod Hu Hparse) as (more & Hout & Hlen & Hnet).
  exists more. rewrite outcome_bind, trace_bind, Hout. simpl.
  by rewrite app_nil_r.
Qed.

(** C1: when exactly one endpoint attempt succeeds, wherever it stands
    among the attempts, awaiting [resolveDnsUpstream] returns the response
    of that attempt once it has settled, and whatever settles afterwards
    does not change the settled race. *)
Theorem race_single_success w this request resolverUrls query promisedRes
    i v :
  outcome (resolveDnsUpstream this request resolverUrls query)
    = Return (Any promisedRes) →
  fates w this promisedRes !! i = Some (Some (Fulfilled v)) →
  (∀ j v', fates w this promisedRes !! j = Some (Some (Fulfilled v')) →
           j = i) →
  i ∈ settle_order w →
  outcome (resolveDnsUpstream this request resolverUrls query
           ≫= await w this) = Return v
  ∧ (∃ p, promisedRes !! i = Some p ∧ is_attempt p)
  ∧ ∀ later,
      PromiseAny.any (fates w this promisedRes) (settle_order w ++ later)
      = Some (Fulfilled v).
Proof.
  intros Hrun Hi Honly Hin. split_and!.
  - rewrite outcome_bind, Hrun. simpl.
    by rewrite (any_single_success _ _ i v).
  - apply race_starts_with_sentinel in Hrun as (more & -> & Hmore).
    destruct i as [|i]; [done|]. simpl in Hi.
    unfold fates in Hi. simpl in Hi. rewrite list_lookup_imap in Hi.
    simpl. destruct (more !! i) as [p|] eqn:Hp; [|done].
    exists p. split; [done|].
    by eapply (Forall_lookup_1 _ _ _ _ Hmore).
  - intros later. apply (any_single_success _ _ i v); [done..|].
    apply elem_of_app. by left.
Qed.

(** C2: when every attempt fails, no response is ever produced, and once
    all have settled [resolveDnsUpstream] is rejected with an aggregate
    of all the errors, the first being that of the initial "no upstream"
    rejection. *)
Theorem race_all_fail w this request resolverUrls query promisedRes es :
  outcome (resolveDnsUpstream this request resolverUrls query)
    = Return (Any promisedRes) →
  fates w this promisedRes = (λ e, Some (Rejected e)) <$> es →
  let r := resolveDnsUpstream this request resolverUrls query
           ≫= await w this in
  head es = Some (Error "no upstream")
  ∧ (∀ order v,
       PromiseAny.any (fates w this promisedRes) order ≠ Some (Fulfilled v))
  ∧ (∀ res, outcome r ≠ Return res)
  ∧ ((∀ j, j < length promisedRes → j ∈ settle_order w) →
     outcome r = Throw (AggregateError es)).
Proof.
  intros Hrun Hfates r.
  destruct (race_starts_with_sentinel _ _ _ _ _ Hrun) as (more & -> & _).
  assert (head es = Some (Error "no upstream")) as Hhead.
  { destruct es as [|e es]; [done|]. by injection Hfates as <- _. }
  assert (∀ order v, PromiseAny.any (fates w this (sentinel :: more)) order
                     ≠ Some (Fulfilled v)) as Hnever.
  { intros order v. apply any_never_fulfilled; [done|].
    intros j v'. rewrite Hfates, list_lookup_fmap. by destruct (es !! j). }
  split_and!; [done|done|..].
  - intros res. subst r. rewrite outcome_bind, Hrun. simpl.
    destruct (PromiseAny.any _ _) as [[v|e]|] eqn:Hany; [|done..].
    by apply Hnever in Hany.
  - intros Hall. subst r. rewrite outcome_bind, Hrun. simpl.
    rewrite Hfates, any_all_rejected; [done|by destruct es|].
    intros j Hj. apply Hall.
    apply (f_equal length) in Hfates.
    unfold fates in Hfates. rewrite length_imap, length_fmap in Hfates.
    by rewrite Hfates.
Qed.

End Race.

(** ** The method guard *)

Section MethodGuard.
Context {Packet : Type}.
Context `{!envutil.t, !bufutil.t, !dnsutil.t Packet, !util.t, !url.t, !node.t}.

(** With neither a GET nor a POST, building the request for a resolver
    does nothing and fails: on a url the platform cannot parse, else on
    the method. *)
Lemma upstream_request_other_method request rurl query :
  util.isGetRequest request = false →
  util.isPostRequest request = false →
  upstream_request request rurl query
  = Run [] (Throw (guard_error request rurl)).
Proof.
  intros Hget Hpost. unfold upstream_request, new_URL, guard_error.
  rewrite Hget, Hpost.
  destruct (url.parse (req_url request)) as [u|]; run; [|done].
  by destruct (url.parse (to_string rurl)) as [up|].
Qed.

Lemma network_skipped (t : list event) :
  Forall (λ ev, ev = skipped) t → network t = [].
Proof.
  unfold network. induction 1 as [|ev t -> _ IH]; [done|].
  rewrite filter_cons_False; [done|]. by intros [].
Qed.

Lemma attempts_other_method this request query rurls acc :
  util.isGetRequest request = false →
  util.isPostRequest request = false →
  let r := attempts this request query rurls acc in
  match nonblank rurls with
  | [] => outcome r = Return acc
          ∧ trace r = replicate (length rurls) skipped
  | rurl :: _ => outcome r = Throw (guard_error request rurl)
                 ∧ ∃ i, rurls !! i = Some rurl
                        ∧ nonblank (take i rurls) = []
                        ∧ trace r = replicate i skipped
  end.
Proof.
  intros Hget Hpost. revert acc.
  induction rurls as [|rurl rurls IH]; intros acc; [done|].
  unfold nonblank. rewrite filter_cons. cbn [attempts].
  destruct (util.emptyString rurl) eqn:Hblank.
  - rewrite decide_False by done. rewrite trace_bind, outcome_bind.
    specialize (IH acc). cbv zeta in IH. fold (nonblank rurls).
    destruct (nonblank rurls) as [|rurl' rest].
    + destruct IH as [-> ->]. done.
    + destruct IH as (-> & i & Hi & Hnone & ->). split; [done|].
      exists (S i). split_and!; [done| |done].
      cbn [take]. unfold nonblank. rewrite filter_cons.
      by rewrite decide_False by (by rewrite Hblank).
  - rewrite decide_True by done.
    rewrite (upstream_request_other_method request rurl query Hget Hpost).
    split; [done|]. by exists 0.
Qed.

(** C7, as the code has it: with a method that is neither GET nor POST no
    attempt is dispatched and nothing is called but the logger, once for
    each blank resolver url skipped, and the resolution never yields a
    response.  At the first resolver url that is not blank
    [resolveDnsUpstream] fails at once, the blank urls before it logged
    and nothing else: with "get/post requests only" when that url and
    the request's parse, and with the [TypeError] of [new URL] otherwise.
    When every resolver url is blank the method is never looked at, every
    url is logged as skipped, and the resolution fails with the aggregate
    of the initial "no upstream" rejection once that rejection is
    delivered. *)
Theorem method_guard this request resolverUrls query :
  util.emptyArray resolverUrls = false →
  util.isGetRequest request = false →
  util.isPostRequest request = false →
  let r := resolveDnsUpstream this request resolverUrls query in
  network (trace r) = []
  ∧ Forall (λ ev, ev = skipped) (trace r)
  ∧ (∀ w res, outcome (r ≫= await w this) ≠ Return res)
  ∧ (∀ rurls rurl rest,
       iterate resolverUrls = Some rurls →
       nonblank rurls = rurl :: rest →
       outcome r = Throw (guard_error request rurl)
       ∧ (is_Some (url.parse (req_url request)) →
          is_Some (url.parse (to_string rurl)) →
          outcome r = Throw (Error "get/post requests only"))
       ∧ ∃ i, rurls !! i = Some rurl
              ∧ nonblank (take i rurls) = []
              ∧ trace r = replicate i skipped)
  ∧ (∀ rurls,
       iterate resolverUrls = Some rurls →
       nonblank rurls = [] →
       outcome r = Return (Any [sentinel])
       ∧ trace r = replicate (length rurls) skipped
       ∧ ∀ w, 0 ∈ settle_order w →
              outcome (r ≫= await w this)
              = Throw (AggregateError [Error "no upstream"])).
Proof.
  intros Hdoh Hget Hpost r.
  assert (Forall (λ ev, ev = skipped) (trace r)
          ∧ (∀ w res, outcome (r ≫= await w this) ≠ Return res)
          ∧ (∀ rurls rurl rest,
               iterate resolverUrls = Some rurls →
               nonblank rurls = rurl :: rest →
               outcome r = Throw (guard_error request rurl)
               ∧ ∃ i, rurls !! i = Some rurl
                      ∧ nonblank (take i rurls) = []
                      ∧ trace r = replicate i skipped)
          ∧ (∀ rurls,
               iterate resolverUrls = Some rurls →
               nonblank rurls = [] →
               outcome r = Return (Any [sentinel])
               ∧ trace r = replicate (length rurls) skipped))
    as (Hlog & Hnever & Hguard & Hblank).
  { subst r. unfold resolveDnsUpstream. rewrite Hdoh.
    destruct (iterate resolverUrls) as [rurls|].
    2:{ split_and!; [by constructor| |done|done].
        intros w res. by rewrite outcome_bind. }
    pose proof (attempts_other_method this request query rurls [sentinel]
                  Hget Hpost) as Hout.
    cbv zeta in Hout. rewrite trace_bind, outcome_bind.
    destruct (nonblank rurls) as [|rurl rest] eqn:Hnb.
    - destruct Hout as [Hout Htrace]. rewrite Hout. simpl.
      rewrite app_nil_r, Htrace. split_and!.
      + by apply Forall_replicate.
      + intros w res. rewrite !outcome_bind, Hout. unfold await.
        cbn [outcome mret M_ret].
        destruct (PromiseAny.any _ _) as [[v|e]|] eqn:Hany; [|done..].
        apply any_never_fulfilled in Hany; [done|done|].
        by intros [|j] v'.
      + intros rurls' rurl' rest' [= <-] Hnb'. congruence.
      + by intros rurls' [= <-] _.
    - destruct Hout as (Hout & i & Hi & Hnone & Htrace).
      rewrite Hout, app_nil_r, Htrace. split_and!.
      + by apply Forall_replicate.
      + intros w res. by rewrite !outcome_bind, Hout.
      + intros rurls' rurl' rest' [= <-] Hnb'.
        rewrite Hnb in Hnb'. injection Hnb' as <- <-.
        split; [done|]. by exists i.
      + intros rurls' [= <-] Hnb'. congruence. }
  split_and!; [|done|done| |].
  - by apply network_skipped.
  - intros rurls rurl rest Hiter Hnb.
    destruct (Hguard rurls rurl rest Hiter Hnb) as [Hout Hi].
    split_and!; [done| |done]. intros [u Hu] [up Hup].
    rewrite Hout. unfold guard_error. by rewrite Hu, Hup.
  - intros rurls Hiter Hnb. destruct (Hblank rurls Hiter Hnb) as [Hout Htrace].
    split_and!; [done|done|]. intros w Hsettle.
    rewrite outcome_bind, Hout. unfold await.
    assert (PromiseAny.any (fates w this [sentinel]) (settle_order w)
            = Some (Rejected (AggregateError [Error "no upstream"]))) as ->;
      [|done].
    apply (any_all_rejected [Error "no upstream"]); [done|].
    intros j Hj. simpl in Hj. by assert (j = 0) as -> by lia.
Qed.

End MethodGuard.

(** ** The selector and the lazily imported modules *)

Section Selector.
Context {Packet : Type}.
Context `{!envutil.t, !bufutil.t, !dnsutil.t Packet, !util.t, !url.t, !node.t}.

(** The four rules of the selector, in their order. *)
Lemma determineDohResolvers_rules this param :
  determineDohResolvers this param
  = match transport this with
    | Some _ => VArr []
    | None =>
        if util.emptyString (userDnsResolverUrl param) then
          if envutil.isWorkers then VArr (preferredDohResolvers this)
          else envutil.dohResolver
        else VArr [userDnsResolverUrl param]
    end.
Proof.
  unfold determineDohResolvers.
  destruct (transport this); [done|]. simpl.
  by destruct (util.emptyString _).
Qed.

(** With a transport the selector returns no endpoint, whatever resolver
    the user asked for. *)
Lemma determineDohResolvers_transport this param :
  is_Some (transport this) → determineDohResolvers this param = VArr [].
Proof.
  intros [t Ht]. by rewrite determineDohResolvers_rules, Ht.
Qed.

Lemma no_doh2_bind {A B} (m : M A) (k : A → M B) :
  no_doh2 (trace m) →
  (∀ a, outcome m = Return a → no_doh2 (trace (k a))) →
  no_doh2 (trace (m ≫= k)).
Proof.
  intros Hm Hk. rewrite trace_bind. apply Forall_app. split; [done|].
  destruct (outcome m) as [a| |]; [by apply Hk|by constructor..].
Qed.

Lemma no_doh2_try_catch {A} (m : M A) (h : exn → M A) :
  no_doh2 (trace m) →
  (∀ e, no_doh2 (trace (h e))) →
  no_doh2 (trace (try_catch m h)).
Proof.
  intros Hm Hh. unfold try_catch. destruct (outcome m); try done.
  simpl. apply Forall_app. split; [done|apply Hh].
Qed.

Lemma lazyInit_coupled this :
  ∃ this',
    outcome (lazyInit this) = Return this'
    ∧ (coupled this → coupled this')
    ∧ (this = constructor → coupled this')
    ∧ no_doh2 (trace (lazyInit this)).
Proof.
  unfold lazyInit, coupled. destruct envutil.isNode; simpl.
  - (* on node the transport is there afterwards *)
    destruct this as [[h2m|] [nu|] [t|] pref]; run; eexists;
      (split_and!;
       [done|intros _ _; by eexists|intros _ _; by eexists
       |by repeat constructor]).
  - (* elsewhere nothing is imported *)
    run. exists this. split_and!; [done|done| |by constructor].
    intros -> [? [=]].
Qed.

(** Without the http2 client every attempt is a [fetch]. *)
Lemma attempts_fetch_only this request query rurls acc :
  http2 this = None →
  no_doh2 (trace (attempts this request query rurls acc))
  ∧ ∀ ps, outcome (attempts this request query rurls acc) = Return ps →
          Forall (λ p, ∀ req, p ≠ PDoh2 req) acc →
          Forall (λ p, ∀ req, p ≠ PDoh2 req) ps.
Proof.
  intros Hh2. revert acc.
  induction rurls as [|rurl rurls IH]; intros acc; cbn [attempts].
  { split; [by constructor|]. by intros ps [= <-]. }
  destruct (util.emptyString rurl).
  { destruct (IH acc) as [Ht Hp]. split.
    - apply no_doh2_bind; [by repeat constructor|]. by intros _ _.
    - intros ps. rewrite outcome_bind. apply Hp. }
  assert (no_doh2 (trace (upstream_request request rurl query))) as Hreq.
  { unfold upstream_request, new_URL.
    destruct (url.parse (req_url request)); run; [|by constructor].
    destruct (url.parse (to_string rurl)); run; [|by constructor].
    destruct (util.isGetRequest request); [by constructor|].
    destruct (util.isPostRequest request); by constructor. }
  split.
  - apply no_doh2_bind; [done|]. intros dnsreq _.
    apply no_doh2_bind.
    + unfold attempt. rewrite Hh2. by repeat constructor.
    + intros p _. apply IH.
  - intros ps. rewrite outcome_bind.
    destruct (outcome (upstream_request _ _ _)) as [dnsreq| |]; [|done..].
    rewrite outcome_bind, outcome_attempt, Hh2. simpl.
    intros Hps Hacc. apply (IH (acc ++ [PFetch dnsreq])); [done|].
    apply Forall_app. split; [done|]. by repeat constructor.
Qed.

Lemma plain_dns_no_doh2 this query : no_doh2 (trace (plain_dns this query)).
Proof.
  unfold plain_dns, ask. destruct (transport this) as [t|]; [|by constructor].
  destruct (udpquery t _) as [a| |e]; run; try by repeat constructor.
  destruct (dnsutil.truncated a); run; [|by repeat constructor].
  destruct (tcpquery t _); by repeat constructor.
Qed.

Lemma decodeResponse_no_doh2 response :
  no_doh2 (trace (decodeResponse (Packet := Packet) response)).
Proof.
  destruct response as [res|]; simpl; [|by constructor].
  destruct (ok res); run; [|by repeat constructor].
  destruct (dnsutil.decode _); by repeat constructor.
Qed.

Lemma await_silent w this a : trace (await w this a) = [].
Proof.
  destruct a as [r|ps]; simpl; [done|].
  by destruct (PromiseAny.any _ _) as [[?|?]|].
Qed.

Lemma resolveDns_no_doh2 w this param :
  coupled this → no_doh2 (trace (resolveDns w this param)).
Proof.
  intros Hc. unfold resolveDns.
  apply no_doh2_bind; [|intros; apply decodeResponse_no_doh2].
  apply no_doh2_bind; [|intros; rewrite await_silent; by constructor].
  unfold resolveDnsUpstream.
  destruct (util.emptyArray _); [apply plain_dns_no_doh2|].
  destruct (transport this) as [t|] eqn:Ht.
  - rewrite determineDohResolvers_transport by by rewrite Ht.
    simpl. by constructor.
  - assert (http2 this = None) as Hh2.
    { destruct (http2 this) eqn:Hh2; [|done].
      destruct Hc as [? Ht']; [by eexists|]. congruence. }
    destruct (iterate _); [|by constructor].
    apply no_doh2_bind; [|intros; by constructor].
    by apply attempts_fetch_only.
Qed.

(** C5: a resolver that starts from the constructor never calls [doh2].
    Fresh, and after every [lazyInit], its http2 client is set only if
    its transport is; with the transport set the selector returns no
    endpoint and the plain path is taken; with the http2 client unset
    every attempt is a [fetch].  So no resolution through
    [RethinkModule] has a [doh2] call in its trace. *)
Theorem doh2_never_invoked w param :
  util.emptyArray (VArr []) = true →
  coupled constructor
  ∧ ∀ this, coupled this →
      ∃ this',
        outcome (lazyInit this) = Return this'
        ∧ coupled this'
        ∧ (is_Some (transport this') →
           determineDohResolvers this' param = VArr []
           ∧ resolveDnsUpstream this' (request param)
               (determineDohResolvers this' param) (requestBodyBuffer param)
             = plain_dns this' (requestBodyBuffer param))
        ∧ (http2 this' = None →
           ∀ request resolverUrls query,
             no_doh2 (trace (resolveDnsUpstream this' request resolverUrls
                               query))
             ∧ ∀ ps,
                 outcome (resolveDnsUpstream this' request resolverUrls
                            query) = Return (Any ps) →
                 Forall (λ p, ∀ req, p ≠ PDoh2 req) ps)
        ∧ no_doh2 (trace (RethinkModule w this param))
        ∧ ∀ r, outcome (RethinkModule w this param) = Return r →
               r.1 = this'.
Proof.
  intros Hempty. split; [by intros [? [=]]|]. intros this Hc.
  destruct (lazyInit_coupled this) as (this' & Hinit & Hc' & _ & Hlog).
  specialize (Hc' Hc). exists this'. split_and!; [done|done|..].
  - intros Ht. rewrite determineDohResolvers_transport by done.
    split; [done|]. unfold resolveDnsUpstream. by rewrite Hempty.
  - intros Hh2 request resolverUrls query. unfold resolveDnsUpstream.
    destruct (util.emptyArray resolverUrls).
    { split; [apply plain_dns_no_doh2|]. intros ps Hps.
      destruct (transport this') as [t|] eqn:Ht.
      - destruct (plain_dns_run this' t query Ht) as [_ Hout].
        rewrite Hout in Hps. by destruct (if escalates _ then _ else _).
      - unfold plain_dns in Hps. by rewrite Ht in Hps. }
    destruct (iterate resolverUrls) as [rurls|].
    2:{ split; [by constructor|done]. }
    destruct (attempts_fetch_only this' request query rurls [sentinel] Hh2)
      as [Ht Hp].
    split.
    + apply no_doh2_bind; [done|]. intros; by constructor.
    + intros ps. rewrite outcome_bind.
      destruct (outcome (attempts _ _ _ _ _)) as [ps'| |] eqn:Hps;
        [|done..].
      intros [= <-]. apply Hp; [done|]. by repeat constructor.
  - unfold RethinkModule. apply no_doh2_bind; [done|].
    intros a Ha. assert (a = this') as -> by congruence.
    apply no_doh2_bind; [|intros; by constructor].
    apply no_doh2_try_catch.
    + apply no_doh2_bind; [by apply resolveDns_no_doh2|].
      intros; by constructor.
    + intros e. by repeat constructor.
  - intros r. unfold RethinkModule. rewrite outcome_bind, Hinit.
    rewrite outcome_bind.
    destruct (outcome (try_catch _ _)); [|done..]. by intros [= <-].
Qed.

End Selector.

(** ** The http2 exchange *)

Section Doh2.
Context {Packet : Type}.
Context `{!envutil.t, !bufutil.t, !dnsutil.t Packet, !util.t, !url.t, !node.t}.

(** When [doh2] gets as far as its promise, the session is the one its
    executor set up. *)
Lemma doh2_session this request s :
  outcome (doh2 this request) = Return s →
  ∃ h2m u,
    http2 this = Some h2m
    ∧ url.parse (req_url request) = Some u
    ∧ s = executor h2m request u (util.copyHeaders request)
            (bufutil.bufferOf (default [] (req_body request))).
Proof.
  unfold doh2, new_URL.
  destruct (http2 this) as [h2m|], (nodeUtil this) as [nu|]; try done.
  destruct (url.parse (req_url request)) as [u|]; run; [|done].
  intros [= <-]. by exists h2m, u.
Qed.




(** The promise is fulfilled by the end-of-stream closure only, which asks
    the connection to close first. *)
Lemma call_close_called_if_fulfilled nu ct l ev s :
  (∀ r, promise_state s = Some (Fulfilled r) → close_called s) →
  ∀ r, promise_state (call nu ct l ev s) = Some (Fulfilled r) →
       close_called (call nu ct l ev s).
Proof.
  intros Hinv r. unfold close_called in *.
  destruct l, ev; simpl; unfold h2.settle, h2.safeBox, h2.close; simpl;
    destruct (promise_state s) eqn:Hp; simpl;
    rewrite ?Exists_app; intros Hr;
    try (by apply (Hinv r); congruence);
    try (by left; left; apply (Hinv r); congruence);
    try (by left; apply (Hinv r); congruence);
    try done.
  right. by constructor.
Qed.

Lemma exchange_close_called_if_fulfilled nu ct s evs :
  (∀ r, promise_state s = Some (Fulfilled r) → close_called s) →
  ∀ r, promise_state (exchange nu ct s evs) = Some (Fulfilled r) →
       close_called (exchange nu ct s evs).
Proof.
  unfold exchange. revert s.
  induction evs as [|ev evs IH]; intros s Hinv; [done|].
  simpl. apply IH. unfold deliver.
  generalize (filter (λ entry, entry.1 = emitted_on ev) (listeners s)).
  intros called. revert s Hinv.
  induction called as [|entry called IHc]; intros s Hinv; [done|].
  simpl. apply IHc. by apply call_close_called_if_fulfilled.
Qed.


End Doh2.

(** * The properties on the concrete deployment *)

(** ** Off node and off Workers: the default resolver *)

Section Elsewhere.
Import Sample.
#[local] Existing Instance elsewhere.

(** C4: the first three rules of the selector return an array; the last one
    returns the default resolver itself, a string, not an array holding
    it.  The loop over it then visits its characters, none of which is a
    url, and the resolution fails before any attempt is made. *)
Theorem selector_default_is_not_an_array :
  let this := constructor in
  let param := param get VNull in
  transport this = None
  ∧ util.emptyString (userDnsResolverUrl param) = true
  ∧ envutil.isWorkers = false
  ∧ determineDohResolvers this param = VStr cloudflare
  ∧ determineDohResolvers this param ≠ VArr [VStr cloudflare]
  ∧ (iterate (determineDohResolvers this param)) ≫= head = Some (VStr "h")
  ∧ resolveDns quiet this param = Run [] (Throw (TypeError "Invalid URL")).
Proof. by split_and!. Qed.

End Elsewhere.

(** ** On Workers: the race *)

Section Workers.
Import Sample.
#[local] Existing Instance on_workers.

(** The url of the request to dispatch goes through the setters in the
    order of lines 150-153: a port that is the default of the scheme the
    incoming url still has is dropped, before the scheme is set. *)
Example upstream_port_goes_through_the_setters :
  outcome (upstream_request get (VStr "http://127.0.0.1:443/dns-query") query)
  = Return {| req_url := "http://127.0.0.1/dns-query?dns=011001000000";
              req_method := "GET"; req_headers := []; req_body := None |}
  ∧ outcome (upstream_request get (VStr "https://dns.google:8443/resolve")
               query)
    = Return {| req_url := "https://dns.google:8443/resolve?dns=011001000000";
                req_method := "GET"; req_headers := []; req_body := None |}.
Proof. done. Qed.

Lemma race_single_success_witness :
  outcome (resolveDnsUpstream constructor get
             (determineDohResolvers constructor (param get VNull)) query
           ≫= await first_refused constructor)
  = Return ok_response.
Proof.
  refine (proj1 (race_single_success first_refused constructor get _ query
                   _ 2 ok_response _ _ _ _)).
  - reflexivity.
  - reflexivity.
  - by intros [|[|[|j]]] v'.
  - by apply elem_of_cons; right; apply elem_of_cons; right;
      apply elem_of_cons; left.
Defined.

Lemma race_all_fail_witness :
  outcome (resolveDnsUpstream constructor get
             (determineDohResolvers constructor (param get VNull)) query
           ≫= await all_refused constructor)
  = Throw (AggregateError [Error "no upstream";
                           TypeError "connection refused";
                           TypeError "connection refused"]).
Proof.
  refine (proj2 (proj2 (proj2
            (race_all_fail all_refused constructor get _ query _
               [Error "no upstream"; TypeError "connection refused";
                TypeError "connection refused"] _ _))) _).
  - reflexivity.
  - reflexivity.
  - intros j Hj. simpl in Hj.
    destruct j as [|[|[|j]]]; [..|lia];
      repeat (first [by apply elem_of_cons; left | apply elem_of_cons; right]).
Defined.

Lemma method_guard_witness :
  outcome (resolveDnsUpstream constructor put
             (determineDohResolvers constructor (param put VNull)) query)
  = Throw (Error "get/post requests only").
Proof.
  refine (proj1 (proj1 (proj2 (proj2 (proj2
            (method_guard constructor put _ query _ _ _))))
            [VStr cloudflare; VStr google] (VStr cloudflare) [VStr google]
            _ _)).
  - reflexivity.
  - reflexivity.
  - reflexivity.
  - reflexivity.
  - reflexivity.
Defined.

End Workers.

(** ** On Workers with no resolver configured *)

Section Unconfigured.
Import Sample.
#[local] Existing Instance unconfigured.

(** C7 as stated fails in three ways.  When every resolver url is blank
    the loop skips them all, logging each, the method is never looked at,
    and the resolution fails with the aggregate of the initial rejection
    instead.  When a blank url comes first the warning for it is logged
    before the guard fails the resolution.  And when the first url that
    is not blank does not parse, [new URL] throws before the guard. *)
Lemma method_guard_not_reached :
  let this := constructor in
  let urls := determineDohResolvers this (param put VNull) in
  let r := resolveDnsUpstream this put urls query in
  let r' := resolveDnsUpstream this put (VArr [VNull; VStr cloudflare])
              query in
  let r'' := resolveDnsUpstream this put (VArr [VStr "dns.google"]) query in
  urls = VArr [VNull; VNull]
  ∧ util.emptyArray urls = false
  ∧ util.isGetRequest put = false
  ∧ util.isPostRequest put = false
  ∧ r = Run [skipped; skipped] (Return (Any [sentinel]))
  ∧ outcome (r ≫= await quiet this)
    = Throw (AggregateError [Error "no upstream"])
  ∧ outcome (r ≫= await quiet this) ≠ Throw (Error "get/post requests only")
  ∧ r' = Run [skipped] (Throw (Error "get/post requests only"))
  ∧ r'' = Run [] (Throw (TypeError "Invalid URL")).
Proof. by split_and!. Qed.

End Unconfigured.

(** ** On node: the plain transport and the http2 exchange *)

Section Node.
Import Sample.
#[local] Existing Instance on_node.

Lemma plain_path_udp_then_tcp_witness :
  let this :=
    node_resolver (replies (Answered truncated_answer) (Answered answer)) in
  network (trace (resolveDnsUpstream this get (VArr []) query))
  = [UdpQuery query; TcpQuery query].
Proof.
  refine (proj1 (plain_path_udp_then_tcp
                   (node_resolver (replies (Answered truncated_answer)
                                     (Answered answer)))
                   (replies (Answered truncated_answer) (Answered answer))
                   get (VArr []) query _ _)).
  - reflexivity.
  - reflexivity.
Defined.

Lemma plain_path_no_answer_503_witness :
  let this :=
    node_resolver (replies (Answered truncated_answer) NoAnswer) in
  outcome (resolveDnsUpstream this get (VArr []) query)
  = Return (Resolved respond503).
Proof.
  refine (proj1 (plain_path_no_answer_503
                   (node_resolver (replies (Answered truncated_answer)
                                     NoAnswer))
                   (replies (Answered truncated_answer) NoAnswer)
                   get (VArr []) query _ _ _)).
  - reflexivity.
  - reflexivity.
  - right. exists truncated_answer. by split_and!.
Defined.

Lemma doh2_never_invoked_witness :
  no_doh2 (trace (RethinkModule first_refused constructor
                    (param get (VStr google)))).
Proof.
  destruct (doh2_never_invoked first_refused (param get (VStr google)))
    as [Hfresh Hall]; [reflexivity|].
  destruct (Hall constructor Hfresh) as (this & _ & _ & _ & _ & Hno & _).
  exact Hno.
Defined.

Lemma decodeResponse_guards_witness :
  outcome (decodeResponse (Some respond503))
  = Throw (Error "503 http err: Service Unavailable").
Proof.
  exact (proj1 (proj1 (decodeResponse_guards (Some respond503)))).
Defined.


(** C9: the claim has the connection closed after every exchange; the code
    does not close it.  When the stream ends, [c.close] is called detached
    from [c]: the call throws, [safeBox] drops the error, and the attempt
    is fulfilled with nothing closed.  When the stream fails no close is
    even called. *)
Theorem doh2_does_not_close_the_connection :
  let this := node_resolver (replies NoAnswer NoAnswer) in
  let ended := exchange node.import_util None get_session
                 [ResponseHeaders response_headers; Data answer; End_] in
  let failed := exchange node.import_util None get_session
                  [ResponseHeaders response_headers; StreamError "reset"] in
  outcome (doh2 this get) = Return get_session
  ∧ promise_state ended
    = Some (Fulfilled (new_Response answer
              (transformPseudoHeaders node.import_util response_headers)))
  ∧ close_called ended
  ∧ (∀ thrown s, is_Some (h2.close thrown s).2)
  ∧ (∀ thrown s, h2.safeBox (h2.close thrown) s = h2.act Close s)
  ∧ promise_state failed = Some (Rejected (Reason "reset"))
  ∧ actions failed
    = [Connect "https://example.com"; On Conn "error";
       OpenStream [(":method", "GET"); (":path", "/dns-query")];
       On Stream "response"; On Stream "error"; EndWrite [];
       On Stream "data"; On Stream "end"]
  ∧ ¬ close_called failed.
Proof.
  split_and!; [done|done| |by eexists|done|done|done|].
  - apply Exists_exists. exists Close. split; [|done]. simpl.
    repeat first [apply list_elem_of_here | apply list_elem_of_further].
  - intros Hc. unfold close_called in Hc. simpl in Hc.
    by repeat (apply Exists_cons in Hc as [?|Hc]; [done|]);
      apply Exists_nil in Hc.
Qed.


End Node.

(** * Further properties of the resolver *)

(** ** Initialisation and the entry point *)

Section Entry.
Context {Packet : Type}.
Context `{!envutil.t, !bufutil.t, !dnsutil.t Packet, !util.t, !url.t, !node.t}.

(** Run alone, one call after the other, [lazyInit] initialises once: a
    call made on the resolver an earlier call has returned imports nothing,
    logs nothing and returns it unchanged; and a call keeps every module
    and the resolver list the resolver already had. *)
Lemma lazyInit_again this this' :
  outcome (lazyInit this) = Return this' →
  lazyInit this' = Run [] (Return this')
  ∧ preferredDohResolvers this' = preferredDohResolvers this
  ∧ (∀ h, http2 this = Some h → http2 this' = Some h)
  ∧ (∀ n, nodeUtil this = Some n → nodeUtil this' = Some n)
  ∧ (∀ t, transport this = Some t → transport this' = Some t).
Proof.
  unfold lazyInit.
  destruct envutil.isNode eqn:Hnode, this as [[h|] [n|] [t|] pref];
    run; intros [= <-]; simpl; by rewrite ?Hnode.
Qed.

(** On node the transport is there after [lazyInit], whatever the resolver
    was before. *)
Lemma lazyInit_on_node this :
  envutil.isNode = true →
  ∃ this', outcome (lazyInit this) = Return this'
           ∧ is_Some (transport this')
           ∧ Forall (λ ev, is_doh_call ev = false) (trace (lazyInit this)).
Proof.
  intros Hnode. unfold lazyInit. rewrite Hnode.
  destruct this as [[h|] [n|] [t|] pref]; run; eexists;
    (split_and!; [done|by eexists|by repeat constructor]).
Qed.

(** X2: no error of [resolveDns] leaves [RethinkModule]: once [lazyInit]
    has returned, whatever [resolveDns] throws is caught, returned as the
    error response of "dnsResolver" and logged last, and what it returns
    is returned as the data of the response.  ([lazyInit] itself runs
    before the [try]; a failure of it is not caught.) *)
Theorem RethinkModule_catches_resolveDns w this this' param :
  outcome (lazyInit this) = Return this' →
  outcome (RethinkModule w this param)
  = match outcome (resolveDns w this' param) with
    | Return data => Return (this', WithData data)
    | Throw e => Return (this', ErrResponse "dnsResolver" e)
    | Pending => Pending
    end
  ∧ ∀ e, outcome (resolveDns w this' param) = Throw e →
         last (trace (RethinkModule w this param)) = Some (Log "e" "main").
Proof.
  intros Hinit. split.
  - unfold RethinkModule. rewrite outcome_bind, Hinit, outcome_bind.
    unfold try_catch. rewrite outcome_bind.
    destruct (outcome (resolveDns w this' param)) eqn:Hres; simpl;
      by rewrite ?outcome_bind, ?Hres.
  - intros e He. unfold RethinkModule.
    rewrite trace_bind, Hinit, trace_bind. unfold try_catch.
    rewrite outcome_bind, He. simpl. rewrite trace_bind, He. simpl.
    rewrite !app_nil_r, !app_assoc. by rewrite last_snoc.
Qed.

End Entry.

(** ** Calls of [lazyInit] that overlap *)

Section Overlap.
Context {Packet : Type}.
Context `{!envutil.t, !bufutil.t, !dnsutil.t Packet, !util.t, !url.t, !node.t}.


Lemma reached_grows p this this' :
  LazyInit.grows this this' →
  LazyInit.reached p this → LazyInit.reached p this'.
Proof.
  intros (Hh & Hn & Ht). destruct p as [| | |[e|]]; simpl; try done.
  - intros []. by split; auto.
  - intros (? & ? & ?). by split_and!; auto.
Qed.

Lemma resume_grows this p :
  LazyInit.grows this (LazyInit.resume this p).1.1.
Proof. destruct p; simpl; by split_and!. Qed.

Lemma third_reached this :
  envutil.isNode = true →
  is_Some (http2 this) → is_Some (nodeUtil this) →
  LazyInit.reached (LazyInit.third this) this.
Proof.
  intros Hnode Hh Hn. unfold LazyInit.third. rewrite Hnode.
  destruct (transport this) eqn:Ht; simpl; [|done].
  split_and!; [done..|]. by rewrite Ht.
Qed.

Lemma second_reached this :
  envutil.isNode = true →
  is_Some (http2 this) →
  LazyInit.reached (LazyInit.second this) this.
Proof.
  intros Hnode Hh. unfold LazyInit.second. rewrite Hnode.
  destruct (nodeUtil this) eqn:Hn; simpl; [|done].
  apply third_reached; [done..|]. by rewrite Hn.
Qed.

Lemma first_reached this :
  envutil.isNode = true →
  LazyInit.reached (LazyInit.first this) this.
Proof.
  intros Hnode. unfold LazyInit.first. rewrite Hnode.
  destruct (http2 this) eqn:Hh; simpl; [|done].
  apply second_reached; [done|]. by rewrite Hh.
Qed.

Lemma resume_reached this p :
  envutil.isNode = true →
  LazyInit.reached p this →
  LazyInit.reached (LazyInit.resume this p).1.2 (LazyInit.resume this p).1.1.
Proof.
  intros Hnode. destruct p as [| |ip|e]; simpl; [| | |done].
  - intros _. by apply second_reached.
  - intros Hh. by apply third_reached.
  - intros [Hh Hn]. by split_and!.
Qed.

Lemma step_reached st t :
  envutil.isNode = true →
  Forall (λ p, LazyInit.reached p (LazyInit.resolver st)) (LazyInit.calls st) →
  Forall (λ p, LazyInit.reached p (LazyInit.resolver (LazyInit.step st t)))
    (LazyInit.calls (LazyInit.step st t)).
Proof.
  intros Hnode Hst. destruct t as [|i|i e]; simpl.
  - apply Forall_app. split; [done|].
    constructor; [|done]. by apply first_reached.
  - destruct (LazyInit.calls st !! i) as [p|] eqn:Hi; [|done]. simpl.
    apply Forall_insert.
    + eapply Forall_impl; [done|]. intros q.
      apply reached_grows, resume_grows.
    + apply resume_reached; [done|].
      by eapply (Forall_lookup_1 _ _ _ _ Hst).
  - destruct (LazyInit.calls st !! i) as [[| | |e']|] eqn:Hi; try done;
      simpl; by apply Forall_insert.
Qed.

Lemma run_reached st ts :
  envutil.isNode = true →
  Forall (λ p, LazyInit.reached p (LazyInit.resolver st)) (LazyInit.calls st) →
  Forall (λ p, LazyInit.reached p (LazyInit.resolver (LazyInit.run st ts)))
    (LazyInit.calls (LazyInit.run st ts)).
Proof.
  intros Hnode. revert st. induction ts as [|t ts IH]; intros st Hst;
    [done|].
  apply IH. by apply step_reached.
Qed.

(** X19: on node, however calls of [lazyInit] on one resolver overlap and
    whichever of their imports fail, once a call has returned the http2
    client, the node utilities and the transport are all set: so the
    selector returns no endpoint to the resolution that follows, which
    takes the plain transport. *)
Theorem lazyInit_returned_means_initialised this ts i param :
  envutil.isNode = true →
  let st := LazyInit.run (LazyInit.init this) ts in
  LazyInit.calls st !! i = Some (LazyInit.Ended None) →
  LazyInit.initialised (LazyInit.resolver st)
  ∧ determineDohResolvers (LazyInit.resolver st) param = VArr [].
Proof.
  intros Hnode st Hi.
  assert (LazyInit.initialised (LazyInit.resolver st)) as Hinit.
  { pose proof (run_reached (LazyInit.init this) ts Hnode) as Hall.
    by apply (Forall_lookup_1 _ _ _ _ (Hall (Forall_nil_2 _)) Hi). }
  split; [done|]. destruct Hinit as (_ & _ & [t Ht]).
  unfold determineDohResolvers. by rewrite Ht.
Qed.

(** X1: once a call of [lazyInit] has returned, a call that starts later
    does nothing, whatever calls came before and however they overlapped:
    it returns at once without importing, leaves the resolver as it is and
    logs nothing.  (A call that starts before any has returned is another
    matter: X20.) *)
Theorem lazyInit_after_a_return_does_nothing this ts i :
  let st := LazyInit.run (LazyInit.init this) ts in
  LazyInit.calls st !! i = Some (LazyInit.Ended None) →
  LazyInit.step st LazyInit.Call
  = {| LazyInit.resolver := LazyInit.resolver st;
       LazyInit.calls := LazyInit.calls st ++ [LazyInit.Ended None];
       LazyInit.logged := LazyInit.logged st |}.
Proof.
  intros st Hi. simpl. do 2 f_equal.
  unfold LazyInit.first, LazyInit.second, LazyInit.third.
  destruct envutil.isNode eqn:Hnode; [|done].
  pose proof (run_reached (LazyInit.init this) ts Hnode (Forall_nil_2 _))
    as Hall.
  destruct (Forall_lookup_1 _ _ _ _ Hall Hi) as ([h Hh] & [n Hn] & [t Ht]).
  fold st in Hh, Hn, Ht. by rewrite Hh, Hn, Ht.
Qed.

(** X20: two calls of [lazyInit] that overlap both initialise.  On node,
    on a resolver with nothing set, when the second call starts before the
    first has resumed, each passes every test before the other has
    assigned: every module is imported by both, the transport is created
    twice and the later creation replaces the earlier.  Had the second
    call started after the first had returned, it would have done
    nothing. *)
Theorem overlapping_calls_initialise_twice this :
  envutil.isNode = true →
  http2 this = None → nodeUtil this = None → transport this = None →
  let overlap := LazyInit.run (LazyInit.init this)
                   [LazyInit.Call; LazyInit.Call;
                    LazyInit.Resume 0; LazyInit.Resume 1;
                    LazyInit.Resume 0; LazyInit.Resume 1;
                    LazyInit.Resume 0; LazyInit.Resume 1] in
  let sequence := LazyInit.run (LazyInit.init this)
                    [LazyInit.Call; LazyInit.Resume 0; LazyInit.Resume 0;
                     LazyInit.Resume 0; LazyInit.Call] in
  LazyInit.logged overlap
  = [Log "i" "created custom http2 client";
     Log "i" "created custom http2 client";
     Log "i" "imported node-util";
     Log "i" "imported node-util";
     Log "i" "created udp/tcp dns transport";
     Log "i" "created udp/tcp dns transport"]
  ∧ LazyInit.calls overlap = [LazyInit.Ended None; LazyInit.Ended None]
  ∧ LazyInit.logged sequence
    = [Log "i" "created custom http2 client";
       Log "i" "imported node-util";
       Log "i" "created udp/tcp dns transport"]
  ∧ LazyInit.calls sequence = [LazyInit.Ended None; LazyInit.Ended None]
  ∧ LazyInit.resolver overlap = LazyInit.resolver sequence.
Proof.
  intros Hnode Hh Hn Ht. destruct this as [h n t pref]. simpl in *. subst.
  unfold LazyInit.run, LazyInit.init.
  repeat (simpl; unfold LazyInit.first, LazyInit.second, LazyInit.third;
          rewrite ?Hnode).
  done.
Qed.

Lemma step_off_node st t :
  envutil.isNode = false →
  Forall (λ p, p = LazyInit.Ended None) (LazyInit.calls st) →
  LazyInit.resolver (LazyInit.step st t) = LazyInit.resolver st
  ∧ LazyInit.logged (LazyInit.step st t) = LazyInit.logged st
  ∧ Forall (λ p, p = LazyInit.Ended None) (LazyInit.calls (LazyInit.step st t)).
Proof.
  intros Hnode Hst. destruct t as [|i|i e]; simpl.
  - split_and!; [done..|]. apply Forall_app. split; [done|].
    constructor; [|done].
    unfold LazyInit.first, LazyInit.second, LazyInit.third.
    by rewrite Hnode.
  - destruct (LazyInit.calls st !! i) as [p|] eqn:Hi; [|done].
    rewrite (Forall_lookup_1 _ _ _ _ Hst Hi). simpl.
    split_and!; [done|by rewrite app_nil_r|]. by apply Forall_insert.
  - destruct (LazyInit.calls st !! i) as [p|] eqn:Hi; [|done].
    by rewrite (Forall_lookup_1 _ _ _ _ Hst Hi).
Qed.

(** X21: off node [lazyInit] does nothing, however many calls are made and
    however they overlap: every call returns at once, the resolver is
    left as it was and nothing is logged. *)
Theorem lazyInit_off_node_does_nothing this ts :
  envutil.isNode = false →
  let st := LazyInit.run (LazyInit.init this) ts in
  LazyInit.resolver st = this
  ∧ LazyInit.logged st = []
  ∧ Forall (λ p, p = LazyInit.Ended None) (LazyInit.calls st).
Proof.
  intros Hnode. simpl.
  assert (∀ st,
    Forall (λ p, p = LazyInit.Ended None) (LazyInit.calls st) →
    LazyInit.resolver (LazyInit.run st ts) = LazyInit.resolver st
    ∧ LazyInit.logged (LazyInit.run st ts) = LazyInit.logged st
    ∧ Forall (λ p, p = LazyInit.Ended None)
        (LazyInit.calls (LazyInit.run st ts))) as Hrun.
  { induction ts as [|t ts IH]; intros st Hst; [done|].
    destruct (step_off_node st t Hnode Hst) as (Hr & Hl & Hc).
    destruct (IH _ Hc) as (Hr' & Hl' & Hc'). simpl.
    split_and!; [congruence..|done]. }
  by apply (Hrun (LazyInit.init this)).
Qed.

End Overlap.

(** ** The loop over the resolver urls *)

Section Loop.
Context {Packet : Type}.
Context `{!envutil.t, !bufutil.t, !dnsutil.t Packet, !util.t, !url.t, !node.t}.

Lemma Forall_trace_bind {A B} (P : event → Prop) (m : M A) (k : A → M B) :
  Forall P (trace m) →
  (∀ a, outcome m = Return a → Forall P (trace (k a))) →
  Forall P (trace (m ≫= k)).
Proof.
  intros Hm Hk. rewrite trace_bind. apply Forall_app. split; [done|].
  destruct (outcome m) as [a| |]; [by apply Hk|by constructor..].
Qed.

(** Building a request calls nothing. *)
Lemma trace_upstream_request request rurl query :
  trace (upstream_request request rurl query) = [].
Proof.
  unfold upstream_request, new_URL.
  destruct (url.parse (req_url request)); run; [|done].
  destruct (url.parse (to_string rurl)); run; [|done].
  destruct (util.isGetRequest request); [done|].
  by destruct (util.isPostRequest request).
Qed.

Lemma upstream_request_shaped request rurl query dnsreq :
  outcome (upstream_request request rurl query) = Return dnsreq →
  shaped request query dnsreq.
Proof.
  unfold upstream_request, new_URL, shaped.
  destruct (url.parse (req_url request)); run; [|done].
  destruct (url.parse (to_string rurl)); run; [|done].
  destruct (util.isGetRequest request).
  { intros [= <-]. by left. }
  destruct (util.isPostRequest request); [|done].
  intros [= <-]. by right.
Qed.

Lemma network_attempt this dnsreq :
  network (trace (attempt this dnsreq))
  = [if truthy (http2 this) then Doh2 dnsreq else Fetch dnsreq].
Proof.
  unfold attempt, network. destruct (truthy (http2 this)); run; [|done].
  rewrite app_nil_r, filter_cons_True by done.
  by rewrite (doh2_no_network this dnsreq).
Qed.

Lemma network_app t1 t2 : network (t1 ++ t2) = network t1 ++ network t2.
Proof. apply filter_app. Qed.

Lemma attempts_skip_blank this request query rurls acc :
  outcome (attempts this request query rurls acc)
  = outcome (attempts this request query (nonblank rurls) acc)
  ∧ network (trace (attempts this request query rurls acc))
    = network (trace (attempts this request query (nonblank rurls) acc)).
Proof.
  revert acc. induction rurls as [|rurl rurls IH]; intros acc; [done|].
  unfold nonblank. rewrite filter_cons. cbn [attempts].
  destruct (util.emptyString rurl) eqn:Hblank.
  - rewrite decide_False by done.
    rewrite outcome_bind, trace_bind. simpl. apply IH.
  - rewrite decide_True by done. cbn [attempts]. rewrite Hblank.
    rewrite !outcome_bind, !trace_bind, !network_app.
    destruct (outcome (upstream_request request rurl query)) as [dnsreq| |];
      [|done..].
    rewrite !outcome_bind, !trace_bind, !network_app, outcome_attempt.
    destruct (IH (acc ++ [if truthy (http2 this) then PDoh2 dnsreq
                          else PFetch dnsreq])) as [-> ->].
    done.
Qed.

(** X3: blank resolver urls do not count: two DoH resolutions whose lists
    of resolver urls have the same entries that are not blank, in the same
    order, end the same way and make the same calls, however many blank
    entries each list has and wherever they stand; with blank entries only
    no call is made and the race is the initial rejection alone. *)
Theorem blank_urls_are_skipped this request query rurls rurls' :
  util.emptyArray (VArr rurls) = false →
  util.emptyArray (VArr rurls') = false →
  nonblank rurls = nonblank rurls' →
  let r := resolveDnsUpstream this request (VArr rurls) query in
  let r' := resolveDnsUpstream this request (VArr rurls') query in
  outcome r = outcome r'
  ∧ network (trace r) = network (trace r')
  ∧ (nonblank rurls = [] →
     outcome r = Return (Any [sentinel]) ∧ network (trace r) = []).
Proof.
  intros Hdoh Hdoh' Hsame. simpl. unfold resolveDnsUpstream.
  rewrite Hdoh, Hdoh'. simpl.
  rewrite !outcome_bind, !trace_bind, !network_app.
  destruct (attempts_skip_blank this request query rurls [sentinel])
    as [-> ->].
  destruct (attempts_skip_blank this request query rurls' [sentinel])
    as [-> ->].
  rewrite Hsame. split_and!; [done|done|].
  intros Hnone. by rewrite Hnone.
Qed.

Lemma attempts_no_transport_call this request query rurls acc :
  Forall (λ ev, is_transport_call ev = false)
    (trace (attempts this request query rurls acc)).
Proof.
  revert acc. induction rurls as [|rurl rurls IH]; intros acc; cbn [attempts].
  { by constructor. }
  destruct (util.emptyString rurl).
  { apply Forall_trace_bind; [by repeat constructor|]. intros; apply IH. }
  apply Forall_trace_bind.
  { rewrite trace_upstream_request. by constructor. }
  intros dnsreq _. apply Forall_trace_bind; [|intros; apply IH].
  unfold attempt. destruct (truthy (http2 this)); run;
    [|by repeat constructor].
  constructor; [done|]. rewrite app_nil_r.
  unfold doh2, new_URL. destruct (http2 this), (nodeUtil this);
    try by constructor.
  destruct (url.parse _); by repeat constructor.
Qed.

Lemma plain_dns_no_doh_call this query :
  Forall (λ ev, is_doh_call ev = false) (trace (plain_dns this query)).
Proof.
  unfold plain_dns, ask. destruct (transport this) as [t|]; [|by constructor].
  destruct (udpquery t _) as [a| |e]; run; try by repeat constructor.
  destruct (dnsutil.truncated a); run; [|by repeat constructor].
  destruct (tcpquery t _); by repeat constructor.
Qed.

(** X4: one resolution uses one strategy: with no resolver url nothing but
    the plain transport is called, with resolver urls the plain transport
    is never called. *)
Theorem one_strategy_per_resolution this request resolverUrls query :
  let t := trace (resolveDnsUpstream this request resolverUrls query) in
  if util.emptyArray resolverUrls
  then Forall (λ ev, is_doh_call ev = false) t
  else Forall (λ ev, is_transport_call ev = false) t.
Proof.
  unfold resolveDnsUpstream. destruct (util.emptyArray resolverUrls); simpl.
  - apply plain_dns_no_doh_call.
  - destruct (iterate resolverUrls) as [rurls|]; [|by constructor].
    apply Forall_trace_bind; [apply attempts_no_transport_call|].
    intros; by constructor.
Qed.

Lemma attempts_calls this request query rurls acc ps :
  outcome (attempts this request query rurls acc) = Return ps →
  ∃ more, ps = acc ++ more
          ∧ network (trace (attempts this request query rurls acc))
            = omap call_of more.
Proof.
  revert acc. induction rurls as [|rurl rurls IH]; intros acc; cbn [attempts].
  { intros [= <-]. exists []. by rewrite app_nil_r. }
  destruct (util.emptyString rurl).
  { rewrite outcome_bind, trace_bind. simpl. apply IH. }
  rewrite outcome_bind, trace_bind, trace_upstream_request.
  destruct (outcome (upstream_request request rurl query)) as [dnsreq| |];
    [|done..].
  rewrite outcome_bind, trace_bind, outcome_attempt. simpl.
  intros Hps. apply IH in Hps as (more & -> & Hnet).
  eexists (_ :: more). rewrite <- app_assoc. split; [done|].
  rewrite network_app, network_attempt, Hnet.
  by destruct (truthy (http2 this)).
Qed.

(** X5: the race and the calls match: when the loop hands its promises to
    [Promise.any], the calls that left are exactly those that created the
    promises after the initial rejection, one each and in their order. *)
Theorem every_promise_has_its_call this request resolverUrls query ps :
  outcome (resolveDnsUpstream this request resolverUrls query)
    = Return (Any ps) →
  network (trace (resolveDnsUpstream this request resolverUrls query))
  = omap call_of ps
  ∧ head ps = Some sentinel
  ∧ length (network (trace (resolveDnsUpstream this request resolverUrls
                              query))) = pred (length ps).
Proof.
  intros Hrun.
  destruct (race_starts_with_sentinel _ _ _ _ _ Hrun) as (more & -> & Hmore).
  revert Hrun. unfold resolveDnsUpstream.
  destruct (util.emptyArray resolverUrls).
  { destruct (transport this) as [t|] eqn:Ht.
    - destruct (plain_dns_run this t query Ht) as [_ ->].
      by destruct (if escalates _ then _ else _).
    - unfold plain_dns. by rewrite Ht. }
  destruct (iterate resolverUrls) as [rurls|]; [|done].
  rewrite outcome_bind, trace_bind.
  destruct (outcome (attempts _ _ _ _ _)) as [ps'| |] eqn:Hps; [|done..].
  simpl. intros [= ->]. rewrite app_nil_r.
  apply attempts_calls in Hps as (more' & [= <-] & Hnet).
  rewrite Hnet. split_and!; [done|done|].
  simpl. clear -Hmore. induction Hmore as [|p more Hp _ IH]; [done|].
  destruct p; [done|..]; cbn [omap list_omap call_of length]; by f_equal.
Qed.

Lemma attempts_shaped this request query rurls acc :
  Forall (λ ev, ∀ dnsreq, request_of ev = Some dnsreq →
                          shaped request query dnsreq)
    (trace (attempts this request query rurls acc)).
Proof.
  revert acc. induction rurls as [|rurl rurls IH]; intros acc; cbn [attempts].
  { by constructor. }
  destruct (util.emptyString rurl).
  { apply Forall_trace_bind; [by repeat constructor|]. intros; apply IH. }
  apply Forall_trace_bind.
  { rewrite trace_upstream_request. by constructor. }
  intros dnsreq Hreq%upstream_request_shaped.
  apply Forall_trace_bind; [|intros; apply IH].
  unfold attempt. destruct (truthy (http2 this)); run.
  - constructor; [by intros ? [= <-]|]. rewrite app_nil_r.
    unfold doh2, new_URL. destruct (http2 this), (nodeUtil this);
      try by constructor.
    destruct (url.parse _); by repeat constructor.
  - constructor; [by intros ? [= <-]|]. by constructor.
Qed.

(** X6: every request that leaves for a resolver has the method of the
    incoming request: a GET goes out as a GET without headers or body, a
    POST as a POST with the query as body under the content-length and DNS
    headers; nothing leaves for any other method. *)
Theorem dispatched_requests_are_shaped this request resolverUrls query :
  Forall (λ ev, ∀ dnsreq, request_of ev = Some dnsreq →
                          shaped request query dnsreq)
    (trace (resolveDnsUpstream this request resolverUrls query)).
Proof.
  unfold resolveDnsUpstream. destruct (util.emptyArray resolverUrls).
  - eapply Forall_impl; [apply plain_dns_no_doh_call|].
    by intros [] Hev dnsreq.
  - destruct (iterate resolverUrls) as [rurls|]; [|by constructor].
    apply Forall_trace_bind; [apply attempts_shaped|].
    intros; by constructor.
Qed.

(** X7: with a resolver url of the user (and no transport) that resolver
    alone is tried: one call leaves, for the request built from the user's
    url, and the race is between it and the initial rejection; when the
    request cannot be built nothing leaves. *)
Theorem user_resolver_is_the_only_upstream this param :
  transport this = None →
  util.emptyString (userDnsResolverUrl param) = false →
  util.emptyArray (VArr [userDnsResolverUrl param]) = false →
  let r := resolveDnsUpstream this (request param)
             (determineDohResolvers this param) (requestBodyBuffer param) in
  match outcome (upstream_request (request param) (userDnsResolverUrl param)
                   (requestBodyBuffer param)) with
  | Return dnsreq =>
      let p := if truthy (http2 this) then PDoh2 dnsreq else PFetch dnsreq in
      outcome r = Return (Any [sentinel; p])
      ∧ network (trace r) = omap call_of [p]
  | Throw e => outcome r = Throw e ∧ network (trace r) = []
  | Pending => False
  end.
Proof.
  intros Ht Huser Hdoh. simpl.
  rewrite determineDohResolvers_rules, Ht, Huser.
  unfold resolveDnsUpstream. rewrite Hdoh. cbn [iterate attempts].
  rewrite Huser.
  destruct (outcome (upstream_request _ _ _)) as [dnsreq|e|] eqn:Hreq.
  - rewrite !outcome_bind, !trace_bind, trace_upstream_request, Hreq.
    rewrite !outcome_bind, !trace_bind, outcome_attempt, Hreq.
    rewrite outcome_bind, outcome_attempt. simpl.
    rewrite !app_nil_r, network_attempt.
    by destruct (truthy (http2 this)).
  - rewrite !outcome_bind, !trace_bind, trace_upstream_request, !Hreq.
    by rewrite outcome_bind, Hreq.
  - revert Hreq. unfold upstream_request, new_URL.
    destruct (url.parse (req_url (request param))); run; [|done].
    destruct (url.parse (to_string _)); run; [|done].
    destruct (util.isGetRequest _); [done|].
    by destruct (util.isPostRequest _).
Qed.

Lemma attempts_unparseable this request query good bad rest acc :
  util.isGetRequest request || util.isPostRequest request = true →
  is_Some (url.parse (req_url request)) →
  Forall (λ rurl, is_Some (url.parse (to_string rurl))) (nonblank good) →
  util.emptyString bad = false →
  url.parse (to_string bad) = None →
  outcome (attempts this request query (good ++ bad :: rest) acc)
    = Throw (TypeError "Invalid URL")
  ∧ length (network (trace (attempts this request query
                              (good ++ bad :: rest) acc)))
    = length (nonblank good).
Proof.
  intros Hmethod [u Hu] Hgood Hbad Hparse. revert acc.
  induction good as [|rurl good IH]; intros acc.
  { cbn [app attempts]. rewrite Hbad.
    rewrite outcome_bind, trace_bind, trace_upstream_request.
    unfold upstream_request, new_URL. rewrite Hu, Hparse. by run. }
  unfold nonblank in Hgood |- *. rewrite filter_cons in Hgood |- *.
  cbn [app attempts]. destruct (util.emptyString rurl) eqn:Hblank.
  { rewrite decide_False in Hgood |- * by done.
    rewrite outcome_bind, trace_bind. simpl. by apply IH. }
  rewrite decide_True in Hgood |- * by done.
  apply Forall_cons in Hgood as [[up Hup] Hgood].
  assert (∃ dnsreq, outcome (upstream_request request rurl query)
                    = Return dnsreq) as [dnsreq Hreq].
  { unfold upstream_request, new_URL. rewrite Hu, Hup. run.
    destruct (util.isGetRequest request); [by eexists|].
    destruct (util.isPostRequest request); [by eexists|done]. }
  rewrite outcome_bind, trace_bind, trace_upstream_request, Hreq.
  rewrite outcome_bind, trace_bind, outcome_attempt. simpl.
  rewrite network_app, length_app, network_attempt.
  destruct (IH Hgood (acc ++ [if truthy (http2 this) then PDoh2 dnsreq
                              else PFetch dnsreq])) as [-> ->].
  done.
Qed.

(** X8: a resolver url that is not blank and that [new URL] rejects fails
    the whole resolution with its [TypeError], even though the attempts
    for the urls before it have already been dispatched; their promises
    are never raced. *)
Theorem unparseable_url_fails_the_resolution this request query
    good bad rest :
  util.emptyArray (VArr (good ++ bad :: rest)) = false →
  util.isGetRequest request || util.isPostRequest request = true →
  is_Some (url.parse (req_url request)) →
  Forall (λ rurl, is_Some (url.parse (to_string rurl))) (nonblank good) →
  util.emptyString bad = false →
  url.parse (to_string bad) = None →
  let r := resolveDnsUpstream this request (VArr (good ++ bad :: rest))
             query in
  outcome r = Throw (TypeError "Invalid URL")
  ∧ length (network (trace r)) = length (nonblank good).
Proof.
  intros Hdoh Hmethod Hu Hgood Hbad Hparse. simpl.
  unfold resolveDnsUpstream. rewrite Hdoh. simpl.
  rewrite outcome_bind, trace_bind, network_app, length_app.
  destruct (attempts_unparseable this request query good bad rest [sentinel]
              Hmethod Hu Hgood Hbad Hparse) as [Hout Hlen].
  rewrite Hout, Hlen. simpl. split; [done|lia].
Qed.



End Loop.

(** ** Whole resolutions *)

Section Resolution.
Context {Packet : Type}.
Context `{!envutil.t, !bufutil.t, !dnsutil.t Packet, !util.t, !url.t, !node.t}.

Lemma decodeResponse_no_doh_call response :
  Forall (λ ev, is_doh_call ev = false)
    (trace (decodeResponse (Packet := Packet) response)).
Proof.
  destruct response as [res|]; simpl; [|by constructor].
  destruct (ok res); run; [|by repeat constructor].
  destruct (dnsutil.decode _); by repeat constructor.
Qed.

Lemma plain_dns_no_decode this query :
  Forall (λ ev, is_decode ev = false) (trace (plain_dns this query)).
Proof.
  unfold plain_dns, ask. destruct (transport this) as [t|]; [|by constructor].
  destruct (udpquery t _) as [a| |e]; run; try by repeat constructor.
  destruct (dnsutil.truncated a); run; [|by repeat constructor].
  destruct (tcpquery t _); by repeat constructor.
Qed.

Lemma resolveDns_plain this param :
  is_Some (transport this) →
  util.emptyArray (VArr []) = true →
  resolveDnsUpstream this (request param) (determineDohResolvers this param)
    (requestBodyBuffer param)
  = plain_dns this (requestBodyBuffer param).
Proof.
  intros Ht Hempty. rewrite determineDohResolvers_transport by done.
  unfold resolveDnsUpstream. by rewrite Hempty.
Qed.

(** X9: with the transport set, [resolveDns] is the plain exchange followed
    by the decoder, whatever the request, the user's resolver url and the
    DoH services do: the answer of the last query is decoded and returned
    with its bytes, no answer at all surfaces as the error of the 503
    response with the codec left alone, and a failed query as its own
    error. *)
Theorem resolveDns_over_plain_dns w this t param :
  transport this = Some t →
  util.emptyArray (VArr []) = true →
  let q := bufutil.bufferOf (requestBodyBuffer param) in
  let final := if escalates (udpquery t q) then tcpquery t q
               else udpquery t q in
  outcome (resolveDns w this param)
  = match final with
    | Answered ans =>
        match dnsutil.decode (bufutil.arrayBufferOf ans) with
        | inr p => Return {| dnsPacket := p;
                             dnsBuffer := bufutil.arrayBufferOf ans |}
        | inl e => Throw e
        end
    | NoAnswer => Throw (http_err respond503)
    | Failed e => Throw e
    end
  ∧ (final = NoAnswer →
     Forall (λ ev, is_decode ev = false) (trace (resolveDns w this param)))
  ∧ Forall (λ ev, is_doh_call ev = false) (trace (resolveDns w this param)).
Proof.
  intros Ht Hempty q final. unfold resolveDns. cbv zeta.
  rewrite resolveDns_plain by by rewrite ?Ht.
  destruct (plain_dns_run this t (requestBodyBuffer param) Ht) as [_ Hout].
  fold q in Hout. fold final in Hout.
  split_and!.
  - rewrite !outcome_bind, Hout. destruct final as [ans| |e]; simpl; [|done..].
    run. by destruct (dnsutil.decode _).
  - intros Hfinal. rewrite Hfinal in Hout. simpl in Hout.
    apply Forall_trace_bind.
    + apply Forall_trace_bind; [apply plain_dns_no_decode|].
      intros a _. rewrite await_silent. by constructor.
    + intros res. rewrite outcome_bind, Hout. simpl. intros [= <-].
      run. by repeat constructor.
  - apply Forall_trace_bind; [|intros; cbv beta; apply decodeResponse_no_doh_call].
    apply Forall_trace_bind; [apply plain_dns_no_doh_call|].
    intros a _. rewrite await_silent. by constructor.
Qed.

(** X10: on node every resolution goes over the plain transport: whatever
    state the resolver is in and whatever resolver url the user gave, no
    [fetch] and no [doh2] call leaves [RethinkModule]. *)
Theorem node_never_uses_doh w this param :
  envutil.isNode = true →
  util.emptyArray (VArr []) = true →
  Forall (λ ev, is_doh_call ev = false) (trace (RethinkModule w this param)).
Proof.
  intros Hnode Hempty. unfold RethinkModule.
  destruct (lazyInit_on_node this Hnode) as (this' & Hinit & Ht & Hlog).
  apply Forall_trace_bind; [done|].
  intros a Ha. assert (a = this') as -> by congruence.
  apply Forall_trace_bind; [|intros; by constructor].
  unfold try_catch.
  assert (Forall (λ ev, is_doh_call ev = false)
            (trace (resolveDns w this' param
                    ≫= λ data, mret (WithData data)))) as Hres.
  { apply Forall_trace_bind; [|intros; by constructor].
    unfold resolveDns. cbv zeta. rewrite resolveDns_plain by done.
    apply Forall_trace_bind; [|intros; cbv beta; apply decodeResponse_no_doh_call].
    apply Forall_trace_bind; [apply plain_dns_no_doh_call|].
    intros a _. rewrite await_silent. by constructor. }
  destruct (outcome (resolveDns w this' param ≫= _)); [done| |done].
  simpl. apply Forall_app. split; [done|]. by repeat constructor.
Qed.

End Resolution.

(** ** More on the race *)

Section RaceOrder.
Context {Packet : Type}.
Context `{!envutil.t, !bufutil.t, !dnsutil.t Packet, !util.t, !url.t, !node.t}.
Import PromiseAny.

Lemma init_slot n i : i < n → errors (init n) !! i = Some None.
Proof. intros Hi. simpl. by apply lookup_replicate_2. Qed.

(** As long as no fulfilled promise has settled, and one is still to
    settle, the race is undecided. *)
Lemma foldl_before_success (fates : list (option settled)) i v order st :
  fates !! i = Some (Some (Fulfilled v)) →
  result st = None →
  errors st !! i = Some None →
  (∀ j, j ∈ order → ∀ v', fates !! j ≠ Some (Some (Fulfilled v'))) →
  result (foldl (step fates) st order) = None
  ∧ errors (foldl (step fates) st order) !! i = Some None.
Proof.
  intros Hi. revert st.
  induction order as [|j order IH]; intros st Hres Hslot Hnone; [done|].
  simpl. apply IH.
  - unfold step. destruct (fates !! j) as [[[v'|e]|]|] eqn:Hj; try done.
    + exfalso. eapply Hnone; [by left|done].
    + unfold on_rejected. destruct (errors st !! j) as [[?|]|]; try done.
      simpl. assert (j ≠ i) by congruence.
      rewrite decide_False; [done|].
      apply (remaining_pos _ i). by rewrite list_lookup_insert_ne.
  - unfold step. destruct (fates !! j) as [[[v'|e]|]|] eqn:Hj; try done.
    + exfalso. eapply Hnone; [by left|done].
    + unfold on_rejected. destruct (errors st !! j) as [[?|]|]; try done.
      simpl. assert (j ≠ i) by congruence.
      rewrite decide_False.
      * simpl. by rewrite list_lookup_insert_ne.
      * apply (remaining_pos _ i). by rewrite list_lookup_insert_ne.
  - intros j' Hj'. apply Hnone. by right.
Qed.

Lemma any_first_success (fates : list (option settled)) before i after v :
  fates !! i = Some (Some (Fulfilled v)) →
  (∀ j, j ∈ before → ∀ v', fates !! j ≠ Some (Some (Fulfilled v'))) →
  any fates (before ++ i :: after) = Some (Fulfilled v).
Proof.
  intros Hi Hbefore. unfold any, run. rewrite foldl_app. simpl.
  destruct (foldl_before_success fates i v before (init (length fates)))
    as [Hres _]; [done|done| |done|].
  { apply init_slot. by eapply lookup_lt_Some. }
  rewrite (foldl_step_settled fates after _ (Fulfilled v)); [done|].
  unfold step at 1. rewrite Hi. unfold on_fulfilled, settle. by rewrite Hres.
Qed.

(** X11: among several attempts that succeed the first to settle wins:
    awaiting [resolveDnsUpstream] returns the response of the first
    fulfilled promise in the order of settlement, whatever the promises
    that settle before it were rejected with and whatever settles after. *)
Theorem first_success_to_settle_wins w this request resolverUrls query
    promisedRes before i after v :
  outcome (resolveDnsUpstream this request resolverUrls query)
    = Return (Any promisedRes) →
  settle_order w = before ++ i :: after →
  fates w this promisedRes !! i = Some (Some (Fulfilled v)) →
  (∀ j, j ∈ before →
        ∀ v', fates w this promisedRes !! j ≠ Some (Some (Fulfilled v'))) →
  outcome (resolveDnsUpstream this request resolverUrls query
           ≫= await w this) = Return v.
Proof.
  intros Hrun Horder Hi Hbefore. rewrite outcome_bind, Hrun. simpl.
  by rewrite Horder, (any_first_success _ before i after v).
Qed.

(** X17: the response that wins the race is the one that is decoded,
    whatever its status: when the first attempt to be fulfilled brings a
    response that is not ok, [resolveDns] fails with the error of that
    status, even if an attempt settling later would have brought an
    answer. *)
Theorem first_response_decides_the_resolution w this param promisedRes
    before i after v :
  outcome (resolveDnsUpstream this (request param)
             (determineDohResolvers this param) (requestBodyBuffer param))
    = Return (Any promisedRes) →
  settle_order w = before ++ i :: after →
  fates w this promisedRes !! i = Some (Some (Fulfilled v)) →
  (∀ j, j ∈ before →
        ∀ v', fates w this promisedRes !! j ≠ Some (Some (Fulfilled v'))) →
  outcome (resolveDns w this param)
  = outcome (decodeResponse (Packet := Packet) (Some v))
  ∧ (ok v = false → outcome (resolveDns w this param) = Throw (http_err v)).
Proof.
  intros Hrun Horder Hi Hbefore.
  assert (outcome (resolveDns w this param)
          = outcome (decodeResponse (Packet := Packet) (Some v))) as Hout.
  { unfold resolveDns. cbv zeta. rewrite !outcome_bind, Hrun.
    unfold await. by rewrite Horder, (any_first_success _ before i after v). }
  split; [done|]. intros Hok. rewrite Hout. simpl. rewrite Hok. by run.
Qed.

Lemma foldl_silent_slot (fates : list (option settled)) i order st :
  fates !! i = Some None →
  errors st !! i = Some None →
  errors (foldl (step fates) st order) !! i = Some None.
Proof.
  intros Hi. revert st. induction order as [|j order IH]; intros st Hslot;
    [done|].
  simpl. apply IH. unfold step.
  destruct (fates !! j) as [[[v'|e]|]|] eqn:Hj; try done.
  - unfold on_fulfilled, settle. by destruct (result st).
  - unfold on_rejected. destruct (errors st !! j) as [[?|]|]; try done.
    simpl. assert (j ≠ i) by congruence.
    case_decide; unfold settle; simpl; [destruct (result st); simpl|];
      by rewrite list_lookup_insert_ne.
Qed.

(** X12: the race has no timeout of its own: when no attempt succeeds and
    one of them never settles, awaiting [resolveDnsUpstream] never
    completes, in whatever order the others fail. *)
Theorem race_waits_for_a_silent_attempt w this request resolverUrls query
    promisedRes i :
  outcome (resolveDnsUpstream this request resolverUrls query)
    = Return (Any promisedRes) →
  fates w this promisedRes !! i = Some None →
  (∀ j v', fates w this promisedRes !! j ≠ Some (Some (Fulfilled v'))) →
  outcome (resolveDnsUpstream this request resolverUrls query
           ≫= await w this) = Pending.
Proof.
  intros Hrun Hi Hnone. rewrite outcome_bind, Hrun. simpl.
  set (fs := fates w this promisedRes) in *.
  assert (fs ≠ []) as Hne by (by intros Hnil; rewrite Hnil in Hi).
  pose proof (invariant_run fs (settle_order w) Hne) as Hinv.
  assert (errors (run fs (settle_order w)) !! i = Some None) as Hslot.
  { apply foldl_silent_slot; [done|]. apply init_slot.
    by eapply lookup_lt_Some. }
  unfold any. destruct (result (run fs (settle_order w))) as [[v|x]|] eqn:Hres.
  - destruct (inv_fulfilled _ _ Hinv v Hres) as [j Hj]. by apply Hnone in Hj.
  - destruct (inv_rejected _ _ Hinv x Hres) as [Hz _].
    by apply remaining_pos in Hslot.
  - done.
Qed.

End RaceOrder.

(** ** More on the http2 exchange *)

Section Doh2Events.
Context {Packet : Type}.
Context `{!envutil.t, !bufutil.t, !dnsutil.t Packet, !util.t, !url.t, !node.t}.

(** No closure settles a promise that is settled. *)
Lemma call_settled nu ct l ev s x :
  promise_state s = Some x → promise_state (call nu ct l ev s) = Some x.
Proof.
  intros Hx. destruct l, ev; simpl; try done;
    unfold h2.settle, h2.safeBox, h2.close; simpl; by rewrite Hx.
Qed.

Lemma deliver_settled nu ct s ev x :
  promise_state s = Some x → promise_state (deliver nu ct s ev) = Some x.
Proof.
  unfold deliver.
  generalize (filter (λ entry, entry.1 = emitted_on ev) (listeners s)).
  intros called. revert s.
  induction called as [|entry called IH]; intros s Hx; [done|].
  simpl. by apply IH, call_settled.
Qed.

Lemma exchange_settled nu ct s evs x :
  promise_state s = Some x → promise_state (exchange nu ct s evs) = Some x.
Proof.
  unfold exchange. revert s.
  induction evs as [|ev evs IH]; intros s Hx; [done|].
  simpl. by apply IH, deliver_settled.
Qed.

(** X13: the promise of [doh2] is settled once: after the first event that
    settles it, whatever the connection and the stream emit, an error
    after the end of the stream or an end after an error, leaves its state
    as it is. *)
Theorem doh2_settles_once nu ct s evs more x :
  promise_state (exchange nu ct s evs) = Some x →
  promise_state (exchange nu ct s (evs ++ more)) = Some x.
Proof.
  intros Hx. unfold exchange. rewrite foldl_app.
  by apply exchange_settled.
Qed.

Lemma executor_wired h2m request u hdrs payload :
  wired (executor h2m request u hdrs payload)
  ∧ promise_state (executor h2m request u hdrs payload) = None
  ∧ listeners (executor h2m request u hdrs payload)
    = [(Conn, "error", conn_error); (Stream, "response", stream_response);
       (Stream, "error", stream_error)].
Proof. split_and!; [|done..]. exists []. split; [done|by constructor]. Qed.

Lemma filter_later (key : emitter * string)
    (later : list (emitter * string * listener)) :
  Forall (λ entry, entry.1 = (Stream, "data") ∨ entry.1 = (Stream, "end"))
    later →
  key ≠ (Stream, "data") → key ≠ (Stream, "end") →
  filter (λ entry, entry.1 = key) later = [].
Proof.
  intros Hlater Hdata Hend. induction Hlater as [|entry later Hentry _ IH];
    [done|].
  rewrite filter_cons_False; [done|].
  intros Hkey. destruct Hentry; congruence.
Qed.

(** Data reaches the data listeners only, which settle nothing and
    register nothing. *)
Lemma call_data nu ct l chunk s :
  listeners (call nu ct l (Data chunk) s) = listeners s
  ∧ promise_state (call nu ct l (Data chunk) s) = promise_state s.
Proof. by destruct l. Qed.

Lemma deliver_data nu ct s chunk :
  listeners (deliver nu ct s (Data chunk)) = listeners s
  ∧ promise_state (deliver nu ct s (Data chunk)) = promise_state s.
Proof.
  unfold deliver.
  generalize (filter (λ entry, entry.1 = emitted_on (Data chunk))
                (listeners s)).
  intros called. revert s.
  induction called as [|entry called IH]; intros s; [done|].
  simpl. destruct (IH (call nu ct entry.2 (Data chunk) s)) as [-> ->].
  apply call_data.
Qed.

Lemma deliver_response nu ct s hdrs :
  wired s →
  wired (deliver nu ct s (ResponseHeaders hdrs))
  ∧ promise_state (deliver nu ct s (ResponseHeaders hdrs)) = promise_state s.
Proof.
  intros (later & Hl & Hlater). unfold deliver. rewrite Hl, filter_app.
  rewrite (filter_later _ later) by done. simpl.
  split; [|done]. eexists (later ++ [_; _]). rewrite Hl. simpl.
  split.
  - by rewrite <- !app_assoc.
  - apply Forall_app. split; [done|].
    apply Forall_cons. split; [by left|].
    apply Forall_cons. split; [by right|]. constructor.
Qed.

Lemma progress_keeps_pending nu ct s evs :
  wired s → promise_state s = None →
  Forall (λ ev, is_progress ev = true) evs →
  wired (exchange nu ct s evs) ∧ promise_state (exchange nu ct s evs) = None.
Proof.
  unfold exchange. intros Hw Hp Hevs. revert s Hw Hp.
  induction Hevs as [|ev evs Hev _ IH]; intros s Hw Hp; [done|].
  simpl. destruct ev as [m|hdrs|chunk| |m]; try done.
  - destruct (deliver_response nu ct s hdrs Hw) as [Hw' Hp'].
    apply IH; [done|congruence].
  - destruct (deliver_data nu ct s chunk) as [Hl' Hp'].
    apply IH; [|congruence].
    destruct Hw as (later & Hl & Hlater). exists later. by rewrite Hl'.
Qed.

Lemma deliver_error nu ct s ev message :
  wired s → promise_state s = None →
  error_message ev = Some message →
  promise_state (deliver nu ct s ev) = Some (Rejected (Reason message)).
Proof.
  intros (later & Hl & Hlater) Hp Hev. unfold deliver. rewrite Hl, filter_app.
  destruct ev as [m| | | |m]; try done; injection Hev as ->;
    rewrite (filter_later _ later) by done; simpl;
    unfold h2.settle; by rewrite Hp.
Qed.

(** X14: the first error that the connection or the stream emits while the
    exchange is under way (headers and data may have arrived, the end of
    the stream has not) rejects the attempt, with the message of the error
    as the reason (a bare string, not an [Error]), whatever is emitted
    afterwards. *)
Theorem doh2_error_rejects_with_message this request s nu ct
    before ev message after :
  outcome (doh2 this request) = Return s →
  Forall (λ ev, is_progress ev = true) before →
  error_message ev = Some message →
  promise_state (exchange nu ct s (before ++ ev :: after))
  = Some (Rejected (Reason message)).
Proof.
  intros Hs Hbefore Hev.
  apply doh2_session in Hs as (h2m & u & _ & _ & ->).
  destruct (executor_wired h2m request u (util.copyHeaders request)
              (bufutil.bufferOf (default [] (req_body request))))
    as (Hw & Hp & _).
  destruct (progress_keeps_pending nu ct _ before Hw Hp Hbefore)
    as [Hw' Hp'].
  unfold exchange in *. rewrite foldl_app. simpl.
  apply exchange_settled. by apply deliver_error.
Qed.

(** X15: without an end of the stream and without an error the attempt
    stays pending, however many headers and chunks arrive; and an end of
    the stream that no response headers preceded goes unnoticed, the end
    listener being registered by the response listener. *)
Theorem doh2_pending_without_end_or_error this request s nu ct evs :
  outcome (doh2 this request) = Return s →
  (Forall (λ ev, is_progress ev = true) evs →
   promise_state (exchange nu ct s evs) = None)
  ∧ (Forall (λ ev, ev = End_ ∨ ∃ chunk, ev = Data chunk) evs →
     exchange nu ct s evs = s).
Proof.
  intros Hs. apply doh2_session in Hs as (h2m & u & _ & _ & ->).
  destruct (executor_wired h2m request u (util.copyHeaders request)
              (bufutil.bufferOf (default [] (req_body request))))
    as (Hw & Hp & Hl).
  split.
  - intros Hevs. by apply progress_keeps_pending.
  - intros Hevs. unfold exchange.
    induction Hevs as [|ev evs Hev _ IH]; [done|].
    simpl. assert (deliver nu ct (executor h2m request u
                      (util.copyHeaders request)
                      (bufutil.bufferOf (default [] (req_body request)))) ev
                   = executor h2m request u (util.copyHeaders request)
                       (bufutil.bufferOf (default [] (req_body request))))
      as ->; [|done].
    unfold deliver. rewrite Hl. by destruct Hev as [->|[chunk ->]].
Qed.

Lemma collect_body nu ct s hdrs acc chunks :
  listeners s
  = [(Conn, "error", conn_error); (Stream, "response", stream_response);
     (Stream, "error", stream_error); (Stream, "data", stream_data 0);
     (Stream, "end", stream_end 0 hdrs)] →
  arrays s = [acc] →
  promise_state s = None →
  promise_state (exchange nu ct s ((Data <$> chunks) ++ [End_]))
  = Some (Fulfilled (new_Response (bufutil.concatBuf (acc ++ chunks))
                       (transformPseudoHeaders nu hdrs))).
Proof.
  unfold exchange. revert s acc.
  induction chunks as [|chunk chunks IH]; intros s acc Hl Ha Hp.
  - simpl. unfold deliver. rewrite Hl. simpl.
    unfold h2.settle, h2.safeBox, h2.close. simpl.
    by rewrite Hp, Ha, app_nil_r.
  - simpl. rewrite (IH _ (acc ++ [chunk])).
    + by rewrite <- app_assoc.
    + unfold deliver. by rewrite Hl.
    + unfold deliver. rewrite Hl. simpl. by rewrite Ha.
    + unfold deliver. by rewrite Hl.
Qed.

(** X16: a stream that delivers response headers, then chunks, then ends
    fulfils the attempt with one response: its body is the chunks in the
    order they arrived, concatenated, and its init the headers with the
    pseudo-headers transformed; the connection has been asked to close. *)
Theorem doh2_collects_the_body this request s nu ct hdrs chunks :
  outcome (doh2 this request) = Return s →
  let s' := exchange nu ct s
              (ResponseHeaders hdrs :: (Data <$> chunks) ++ [End_]) in
  promise_state s'
  = Some (Fulfilled (new_Response (bufutil.concatBuf chunks)
                       (transformPseudoHeaders nu hdrs)))
  ∧ close_called s'.
Proof.
  intros Hs s'. assert (promise_state s'
    = Some (Fulfilled (new_Response (bufutil.concatBuf chunks)
                         (transformPseudoHeaders nu hdrs)))) as Hp.
  { subst s'. apply doh2_session in Hs as (h2m & u & _ & _ & ->).
    unfold exchange. cbn [foldl].
    by apply (collect_body nu ct _ hdrs [] chunks). }
  split; [done|]. subst s'.
  eapply exchange_close_called_if_fulfilled; [|done].
  apply doh2_session in Hs as (h2m & u & _ & _ & ->). done.
Qed.

End Doh2Events.

(** * The further properties on the concrete deployment *)

Section WorkersRace.
Import Sample.
#[local] Existing Instance on_workers.

Lemma RethinkModule_catches_resolveDns_witness :
  outcome (RethinkModule all_refused constructor (param get VNull))
  = Return (constructor,
            ErrResponse "dnsResolver"
              (AggregateError [Error "no upstream";
                               TypeError "connection refused";
                               TypeError "connection refused"])).
Proof.
  refine (proj1 (RethinkModule_catches_resolveDns all_refused constructor
                   constructor (param get VNull) _)).
  reflexivity.
Defined.

Lemma blank_urls_are_skipped_witness :
  outcome (resolveDnsUpstream constructor get
             (VArr [VNull; VStr cloudflare; VNull; VStr google]) query)
  = outcome (resolveDnsUpstream constructor get
               (VArr [VStr cloudflare; VStr google; VNull]) query).
Proof.
  refine (proj1 (blank_urls_are_skipped constructor get query
                   [VNull; VStr cloudflare; VNull; VStr google]
                   [VStr cloudflare; VStr google; VNull] _ _ _)).
  - reflexivity.
  - reflexivity.
  - reflexivity.
Defined.

Lemma one_strategy_per_resolution_witness :
  Forall (λ ev, is_transport_call ev = false)
    (trace (resolveDnsUpstream constructor get
              (VArr [VStr cloudflare; VStr google]) query)).
Proof.
  exact (one_strategy_per_resolution constructor get
           (VArr [VStr cloudflare; VStr google]) query).
Defined.

Lemma every_promise_has_its_call_witness :
  let r := resolveDnsUpstream constructor get
             (VArr [VStr cloudflare; VStr google]) query in
  ∃ ps, outcome r = Return (Any ps) ∧ network (trace r) = omap call_of ps.
Proof.
  eexists. split; [reflexivity|].
  refine (proj1 (every_promise_has_its_call constructor get _ query _ _)).
  reflexivity.
Defined.

Lemma dispatched_requests_are_shaped_witness :
  Forall (λ ev, ∀ dnsreq, request_of ev = Some dnsreq →
                          shaped post query dnsreq)
    (trace (resolveDnsUpstream constructor post
              (VArr [VStr cloudflare; VStr google]) query)).
Proof.
  exact (dispatched_requests_are_shaped constructor post
           (VArr [VStr cloudflare; VStr google]) query).
Defined.

Lemma user_resolver_is_the_only_upstream_witness :
  length (network (trace (resolveDnsUpstream constructor get
                            (determineDohResolvers constructor
                               (param get (VStr google)))
                            query))) = 1.
Proof.
  pose proof (user_resolver_is_the_only_upstream constructor
                (param get (VStr google))) as Huser.
  destruct Huser as [_ Hnet]; [reflexivity..|].
  exact (f_equal length Hnet).
Defined.

Lemma unparseable_url_fails_the_resolution_witness :
  outcome (resolveDnsUpstream constructor get
             (VArr [VStr cloudflare; VStr "dns.google"]) query)
  = Throw (TypeError "Invalid URL").
Proof.
  refine (proj1 (unparseable_url_fails_the_resolution constructor get query
                   [VStr cloudflare] (VStr "dns.google") [] _ _ _ _ _ _)).
  - reflexivity.
  - reflexivity.
  - by eexists.
  - repeat constructor. by eexists.
  - reflexivity.
  - reflexivity.
Defined.

Lemma first_success_to_settle_wins_witness :
  outcome (resolveDnsUpstream constructor get
             (determineDohResolvers constructor (param get VNull)) query
           ≫= await second_is_faster constructor)
  = Return ok_response.
Proof.
  refine (first_success_to_settle_wins second_is_faster constructor get _
            query _ [0] 2 [1] ok_response _ _ _ _).
  - reflexivity.
  - reflexivity.
  - reflexivity.
  - intros j Hj%list_elem_of_singleton v'. by subst j.
Defined.

Lemma race_waits_for_a_silent_attempt_witness :
  outcome (resolveDnsUpstream constructor get
             (determineDohResolvers constructor (param get VNull)) query
           ≫= await first_is_silent constructor)
  = Pending.
Proof.
  refine (race_waits_for_a_silent_attempt first_is_silent constructor get _
            query _ 1 _ _ _).
  - reflexivity.
  - reflexivity.
  - by intros [|[|[|j]]] v'.
Defined.

Lemma first_response_decides_the_resolution_witness :
  outcome (resolveDns first_fails_fast constructor (param get VNull))
  = Throw (Error "500 http err: Internal Server Error").
Proof.
  refine (proj2 (first_response_decides_the_resolution first_fails_fast
                   constructor (param get VNull) _ [0] 1 [2] server_error
                   _ _ _ _) _).
  - reflexivity.
  - reflexivity.
  - reflexivity.
  - intros j Hj%list_elem_of_singleton v'. by subst j.
  - reflexivity.
Defined.


Lemma lazyInit_off_node_does_nothing_witness :
  LazyInit.resolver
    (LazyInit.run (LazyInit.init constructor)
       [LazyInit.Call; LazyInit.Call; LazyInit.Resume 0; LazyInit.Resume 1])
  = constructor.
Proof.
  refine (proj1 (lazyInit_off_node_does_nothing constructor
                   [LazyInit.Call; LazyInit.Call; LazyInit.Resume 0;
                    LazyInit.Resume 1] _)).
  reflexivity.
Defined.

End WorkersRace.

Section NodeExchange.
Import Sample.
#[local] Existing Instance on_node.

Lemma lazyInit_after_a_return_does_nothing_witness :
  LazyInit.step
    (LazyInit.run (LazyInit.init constructor)
       [LazyInit.Call; LazyInit.Call; LazyInit.Resume 0; LazyInit.Resume 1;
        LazyInit.Resume 0; LazyInit.Resume 0])
    LazyInit.Call
  = {| LazyInit.resolver :=
         node_resolver (node.new_Transport dnsutil.dnsIpv4 53);
       LazyInit.calls :=
         [LazyInit.Ended None; LazyInit.AwaitNodeUtil; LazyInit.Ended None];
       LazyInit.logged :=
         [Log "i" "created custom http2 client";
          Log "i" "created custom http2 client";
          Log "i" "imported node-util";
          Log "i" "created udp/tcp dns transport"] |}.
Proof.
  refine (lazyInit_after_a_return_does_nothing constructor
            [LazyInit.Call; LazyInit.Call; LazyInit.Resume 0;
             LazyInit.Resume 1; LazyInit.Resume 0; LazyInit.Resume 0] 0 _).
  reflexivity.
Defined.

Lemma lazyInit_returned_means_initialised_witness :
  LazyInit.initialised
    (LazyInit.resolver
       (LazyInit.run (LazyInit.init constructor)
          [LazyInit.Call; LazyInit.Call; LazyInit.Resume 0;
           LazyInit.Reject 1 (Error "Cannot find module");
           LazyInit.Resume 0; LazyInit.Resume 0])).
Proof.
  refine (proj1 (lazyInit_returned_means_initialised constructor
                   [LazyInit.Call; LazyInit.Call; LazyInit.Resume 0;
                    LazyInit.Reject 1 (Error "Cannot find module");
                    LazyInit.Resume 0; LazyInit.Resume 0]
                   0 (param get VNull) _ _)).
  - reflexivity.
  - reflexivity.
Defined.

Lemma overlapping_calls_initialise_twice_witness :
  LazyInit.logged
    (LazyInit.run (LazyInit.init constructor)
       [LazyInit.Call; LazyInit.Call;
        LazyInit.Resume 0; LazyInit.Resume 1;
        LazyInit.Resume 0; LazyInit.Resume 1;
        LazyInit.Resume 0; LazyInit.Resume 1])
  = [Log "i" "created custom http2 client";
     Log "i" "created custom http2 client";
     Log "i" "imported node-util";
     Log "i" "imported node-util";
     Log "i" "created udp/tcp dns transport";
     Log "i" "created udp/tcp dns transport"].
Proof.
  refine (proj1 (overlapping_calls_initialise_twice constructor _ _ _ _)).
  - reflexivity.
  - reflexivity.
  - reflexivity.
  - reflexivity.
Defined.

Lemma resolveDns_over_plain_dns_witness :
  outcome (resolveDns first_refused
             (node_resolver (replies (Answered answer) NoAnswer))
             (param get (VStr google)))
  = Return {| dnsPacket := answer; dnsBuffer := answer |}.
Proof.
  refine (proj1 (resolveDns_over_plain_dns first_refused
                   (node_resolver (replies (Answered answer) NoAnswer))
                   (replies (Answered answer) NoAnswer)
                   (param get (VStr google)) _ _)).
  - reflexivity.
  - reflexivity.
Defined.

Lemma node_never_uses_doh_witness :
  Forall (λ ev, is_doh_call ev = false)
    (trace (RethinkModule first_refused constructor
              (param get (VStr google)))).
Proof.
  refine (node_never_uses_doh first_refused constructor
            (param get (VStr google)) _ _).
  - reflexivity.
  - reflexivity.
Defined.

Lemma doh2_settles_once_witness :
  promise_state (exchange node.import_util None get_session
                   ([ResponseHeaders response_headers; End_]
                    ++ [StreamError "late"]))
  = Some (Fulfilled (new_Response []
            (transformPseudoHeaders node.import_util response_headers))).
Proof.
  refine (doh2_settles_once node.import_util None get_session
            [ResponseHeaders response_headers; End_] [StreamError "late"]
            _ _).
  reflexivity.
Defined.

Lemma doh2_error_rejects_with_message_witness :
  promise_state (exchange node.import_util None get_session
                   ([ResponseHeaders response_headers; Data answer]
                    ++ ConnectionError "reset" :: [End_]))
  = Some (Rejected (Reason "reset")).
Proof.
  refine (doh2_error_rejects_with_message
            (node_resolver (replies NoAnswer NoAnswer)) get get_session
            node.import_util None
            [ResponseHeaders response_headers; Data answer]
            (ConnectionError "reset") "reset" [End_] _ _ _).
  - reflexivity.
  - by repeat constructor.
  - reflexivity.
Defined.

Lemma doh2_pending_without_end_or_error_witness :
  promise_state (exchange node.import_util None get_session
                   [ResponseHeaders response_headers; Data answer])
  = None.
Proof.
  refine (proj1 (doh2_pending_without_end_or_error
                   (node_resolver (replies NoAnswer NoAnswer)) get get_session
                   node.import_util None
                   [ResponseHeaders response_headers; Data answer] _) _).
  - reflexivity.
  - by repeat constructor.
Defined.

Lemma doh2_collects_the_body_witness :
  promise_state (exchange node.import_util None get_session
                   (ResponseHeaders response_headers
                    :: (Data <$> [answer; truncated_answer]) ++ [End_]))
  = Some (Fulfilled (new_Response (answer ++ truncated_answer)
            (transformPseudoHeaders node.import_util response_headers))).
Proof.
  refine (proj1 (doh2_collects_the_body
                   (node_resolver (replies NoAnswer NoAnswer)) get get_session
                   node.import_util None response_headers
                   [answer; truncated_answer] _)).
  reflexivity.
Defined.

End NodeExchange.
